(** * webwormhole signalling server: slot table, allocator, rendezvous, relay

    A shallow embedding of [cmd/ww/server.go].  The allocator [freeslot] is a
    function of the slot table and of the values drawn from [math/rand]; the
    handler [relay], with the goroutine it starts, is a transition function
    over a global state made of the slot table, the per-connection variables
    the two share ([slotkey], [rconn], the context) and their program
    points.  Every access to [slots.m] in the source sits between
    [slots.Lock()] and [slots.Unlock()], so each locked block is one
    transition. *)

From Stdlib Require Import ZArith Ascii String.
From stdpp Require Import gmap strings list.

(** ** strconv.Itoa

    The decimal text of an integer, as the Go library prints it: digits
    only, with a minus sign in front of a negative number. *)

Module Strconv.

Local Open Scope Z_scope.

Definition digit_char (d : Z) : ascii := ascii_of_nat (48 + Z.to_nat d).

(** Digits are produced from the least significant one and written in front
    of what is already there, as the library's formatting loop does; twenty
    rounds cover every 64-bit value. *)
Fixpoint format_dec (fuel : nat) (u : Z) (acc : string) : string :=
  match fuel with
  | O => acc
  | S fuel' =>
      let acc' := String (digit_char (u mod 10)) acc in
      if u / 10 =? 0 then acc' else format_dec fuel' (u / 10) acc'
  end.

Definition Itoa (i : Z) : string :=
  if i <? 0 then String "-" (format_dec 20 (- i) EmptyString)
  else format_dec 20 i EmptyString.

(** Reading a decimal string back, and the shape of a canonical code. *)

Definition is_digit (a : ascii) : bool :=
  (48 <=? nat_of_ascii a)%nat && (nat_of_ascii a <=? 57)%nat.

Definition digit_val (a : ascii) : Z := Z.of_nat (nat_of_ascii a) - 48.

Fixpoint all_digits (s : string) : bool :=
  match s with
  | EmptyString => true
  | String a r => is_digit a && all_digits r
  end.

Fixpoint dec_value (s : string) (acc : Z) : Z :=
  match s with
  | EmptyString => acc
  | String a r => dec_value r (10 * acc + digit_val a)
  end.

Definition no_leading_zero (s : string) : bool :=
  match s with
  | EmptyString => false
  | String a EmptyString => true
  | String a _ => negb (Ascii.eqb a "0")
  end.

(** Digits only, not empty, no leading zero, value below 2^24. *)
Definition canonical_code (s : string) : bool :=
  all_digits s && no_leading_zero s && (dec_value s 0 <? 2 ^ 24).

End Strconv.

Import Strconv.

(** ** The slot table and the allocator *)

Definition conn := nat.
Definition chan := nat.

(** [rand.Intn(n)] yields a value in [0, n).  The source of randomness is
    the sequence of raw draws; the [i]-th call reduces the [i]-th draw. *)
Definition Intn (rnd : nat → Z) (pos : nat) (n : Z) : Z := (rnd pos mod n)%Z.

(** One of the four loops of [freeslot]: up to [tries] draws below [bound],
    stopping at the first that is not a key of the table.  The position in
    the random sequence is threaded through. *)
Fixpoint try_band (m : gmap string chan) (rnd : nat → Z) (bound : Z)
    (tries : nat) (pos : nat) : option string * nat :=
  match tries with
  | O => (None, pos)
  | S tries' =>
      let s := Itoa (Intn rnd pos bound) in
      match m !! s with
      | None => (Some s, S pos)
      | Some _ => try_band m rnd bound tries' (S pos)
      end
  end.

Definition freeslot (m : gmap string chan) (rnd : nat → Z) : string * bool :=
  match try_band m rnd 10 3 0 with
  | (Some s, _) => (s, true)
  | (None, p1) =>
  match try_band m rnd (2 ^ 8) 64 p1 with
  | (Some s, _) => (s, true)
  | (None, p2) =>
  match try_band m rnd (2 ^ 16) 1024 p2 with
  | (Some s, _) => (s, true)
  | (None, p3) =>
  match try_band m rnd (2 ^ 24) 1024 p3 with
  | (Some s, _) => (s, true)
  | (None, _) => (EmptyString, false)
  end end end end.

(** ** Close codes and message types *)

Definition CloseNoSuchSlot : Z := (4000 + 0)%Z.
Definition CloseSlotTimedOut : Z := (4000 + 1)%Z.
Definition CloseNoMoreSlots : Z := (4000 + 2)%Z.

(** Message types of the websocket library. *)
Definition TextMessage : Z := 1%Z.
Definition BinaryMessage : Z := 2%Z.

(** A frame as [ReadMessage] returns it: message type and payload. *)
Definition frame : Type := Z * list Byte.byte.

(** ** State of the relay *)

(** Program points of the goroutine started by [relay] (lines 105-176). *)
Inductive GPc : Type :=
  | GStart          (* line 106, nothing done yet *)
  | GBookFull       (* lines 111-118: unlocked, close 4002 to be written *)
  | GBookWrite      (* line 125: the code is to be written to the booker *)
  | GBookSelect     (* line 130: select on ctx.Done() and sc <- conn *)
  | GBookDrop       (* lines 133-135: the locked delete after a timeout *)
  | GBookTimedOut   (* lines 136-142: close 4001 to be written *)
  | GBookRecv       (* line 145: rconn = <-sc *)
  | GJoinMissing    (* lines 153-160: unlocked, close 4000 to be written *)
  | GJoinSelect     (* line 165: select on ctx.Done() and rconn = <-sc *)
  | GJoinTimedOut   (* lines 167-172: close 4001 to be written *)
  | GJoinSend       (* line 175: sc <- conn *)
  | GDone.          (* the goroutine has returned *)

(** Program points of the read loop of [relay] (lines 179-194). *)
Inductive HPc : Type :=
  | HRead                 (* line 180: blocked in conn.ReadMessage() *)
  | HGot (f : frame)      (* line 184: a frame is in hand *)
  | HReturned.            (* relay has returned, cancel() has run *)

(** What a connection's handler and goroutine share.  A connection is
    named by its [conn]; that name is also the value sent over a channel. *)
Record Task : Type := mkTask {
  slotkey : string;
  rconn : option conn;
  sc : option chan;
  gpc : GPc;
  hpc : HPc;
  ctx_done : bool
}.

Record State : Type := mkState {
  slots : gmap string chan;
  tasks : gmap conn Task;
  nchan : chan
}.

Definition init : State := mkState ∅ ∅ 0.

(** Calls on connections, in the order the server makes them. *)
Inductive Event : Type :=
  | ERead (c : conn) (res : option frame)                      (* line 180 *)
  | EWriteSlot (c : conn) (mt : Z) (p : list Byte.byte) (ok : bool)
                                                               (* line 125 *)
  | EForward (c rc : conn) (mt : Z) (p : list Byte.byte) (ok : bool)
                                                               (* line 190 *)
  | EWriteClose (c : conn) (code : Z) (reason : string)
      (* WriteControl(CloseMessage, FormatCloseMessage(code, reason), _) *)
  | EConnClose (c : conn)                                      (* Close() *)
  | ECloseEcho (c : conn) (code : Z).
      (* inside ReadMessage, line 180: the close handler the library
         installs answers a close frame of the client with
         WriteControl(CloseMessage, FormatCloseMessage(code, empty), _) *)

(** What the scheduler and the environment decide: which task moves, what
    the random source and the network return, which ready case a select
    takes. *)
Inductive Action : Type :=
  | AAccept (c : conn) (key : string)
  | ABook (c : conn) (rnd : nat → Z)
  | AWriteSlot (c : conn) (ok : bool)
  | AJoin (c : conn)
  | AClose (c : conn)
  | ADeadline (c : conn)
  | ATimeout (c : conn)
  | ADrop (c : conn)
  | AHandoff (s r : conn)
  | ARead (c : conn) (res : option frame)
  | AForward (c : conn) (ok : bool)
  | AReadClose (c : conn) (code : Z).

Definition set_gpc (t : Task) (pc : GPc) : Task :=
  mkTask (slotkey t) (rconn t) (sc t) pc (hpc t) (ctx_done t).

Definition set_hpc (t : Task) (pc : HPc) : Task :=
  mkTask (slotkey t) (rconn t) (sc t) (gpc t) pc (ctx_done t).

Definition set_rconn (t : Task) (rc : conn) (pc : GPc) : Task :=
  mkTask (slotkey t) (Some rc) (sc t) pc (hpc t) (ctx_done t).

(** [cancel()], and the timer of [context.WithTimeout]. *)
Definition cancel (t : Task) : Task :=
  mkTask (slotkey t) (rconn t) (sc t) (gpc t) (hpc t) true.

(** [return] from the read loop: the deferred [cancel()] runs. *)
Definition handler_return (t : Task) : Task := cancel (set_hpc t HReturned).

Definition upd (st : State) (c : conn) (t : Task) : State :=
  mkState (slots st) (<[c := t]> (tasks st)) (nchan st).

Definition close_frame (c : conn) (code : Z) (reason : string) : list Event :=
  [EWriteClose c code reason; EConnClose c].

(** ** Transitions *)

(** Lines 95-105: the upgrade succeeded; [c] is the new connection. *)
Definition accept (st : State) (c : conn) (key : string)
    : option (State * list Event) :=
  match tasks st !! c with
  | Some _ => None
  | None => Some (upd st c (mkTask key None None GStart HRead false), [])
  end.

(** Lines 106-123: allocation and insertion, under the lock. *)
Definition book (st : State) (c : conn) (rnd : nat → Z)
    : option (State * list Event) :=
  t ← tasks st !! c;
  match gpc t with
  | GStart =>
      if String.eqb (slotkey t) EmptyString then
        match freeslot (slots st) rnd with
        | (newslot, true) =>
            Some (mkState (<[newslot := nchan st]> (slots st))
                    (<[c := mkTask newslot (rconn t) (Some (nchan st))
                             GBookWrite (hpc t) (ctx_done t)]> (tasks st))
                    (S (nchan st)), [])
        | (_, false) => Some (upd st c (set_gpc t GBookFull), [])
        end
      else None
  | _ => None
  end.

(** Lines 125-129: the code goes to the booker as a text frame; on an
    error the goroutine returns. *)
Definition write_slot (st : State) (c : conn) (ok : bool)
    : option (State * list Event) :=
  t ← tasks st !! c;
  match gpc t with
  | GBookWrite =>
      Some (upd st c (set_gpc t (if ok then GBookSelect else GDone)),
            [EWriteSlot c TextMessage (list_byte_of_string (slotkey t)) ok])
  | _ => None
  end.

(** Lines 150-163: lookup and delete, under the lock. *)
Definition join (st : State) (c : conn) : option (State * list Event) :=
  t ← tasks st !! c;
  match gpc t with
  | GStart =>
      if String.eqb (slotkey t) EmptyString then None
      else
        match slots st !! slotkey t with
        | None => Some (upd st c (set_gpc t GJoinMissing), [])
        | Some ch =>
            Some (mkState (delete (slotkey t) (slots st))
                    (<[c := mkTask (slotkey t) (rconn t) (Some ch)
                             GJoinSelect (hpc t) (ctx_done t)]> (tasks st))
                    (nchan st), [])
        end
  | _ => None
  end.

(** The four places where a close frame is written and the connection is
    closed.  Three of them return; the joiner's (lines 167-172) falls out
    of the select to line 175. *)
Definition close (st : State) (c : conn) : option (State * list Event) :=
  t ← tasks st !! c;
  match gpc t with
  | GBookFull =>
      Some (upd st c (set_gpc t GDone),
            close_frame c CloseNoMoreSlots "cannot allocate slots")
  | GBookTimedOut =>
      Some (upd st c (set_gpc t GDone),
            close_frame c CloseSlotTimedOut "timed out")
  | GJoinMissing =>
      Some (upd st c (set_gpc t GDone),
            close_frame c CloseNoSuchSlot "no such slot")
  | GJoinTimedOut =>
      Some (upd st c (set_gpc t GJoinSend),
            close_frame c CloseSlotTimedOut "timed out")
  | _ => None
  end.

(** The context of [c] becomes done because its timer fires (the
    cancellation of the request's own context has the same effect). *)
Definition deadline (st : State) (c : conn) : option (State * list Event) :=
  t ← tasks st !! c;
  Some (upd st c (cancel t), []).

(** A select takes its [<-ctx.Done()] case (lines 131 and 166). *)
Definition timeout (st : State) (c : conn) : option (State * list Event) :=
  t ← tasks st !! c;
  if ctx_done t then
    match gpc t with
    | GBookSelect => Some (upd st c (set_gpc t GBookDrop), [])
    | GJoinSelect => Some (upd st c (set_gpc t GJoinTimedOut), [])
    | _ => None
    end
  else None.

(** Lines 133-135: the booker deletes its key, under the lock. *)
Definition drop (st : State) (c : conn) : option (State * list Event) :=
  t ← tasks st !! c;
  match gpc t with
  | GBookDrop =>
      Some (mkState (delete (slotkey t) (slots st))
              (<[c := set_gpc t GBookTimedOut]> (tasks st)) (nchan st), [])
  | _ => None
  end.

(** Where a goroutine offers a send on its channel, and where it goes
    once the send is taken. *)
Definition after_send (pc : GPc) : option GPc :=
  match pc with
  | GBookSelect => Some GBookRecv     (* line 143 *)
  | GJoinSend => Some GDone           (* line 175 *)
  | _ => None
  end.

(** Where a goroutine offers a receive into [rconn]. *)
Definition after_recv (pc : GPc) : option GPc :=
  match pc with
  | GJoinSelect => Some GJoinSend     (* line 173 *)
  | GBookRecv => Some GDone           (* line 145 *)
  | _ => None
  end.

(** The channel is unbuffered: a send by [s] and a receive by [r] on the
    same channel happen together, and [r] gets the connection of [s]. *)
Definition handoff (st : State) (s r : conn) : option (State * list Event) :=
  ts ← tasks st !! s;
  tr ← tasks st !! r;
  ch ← sc ts;
  ch' ← sc tr;
  pcs ← after_send (gpc ts);
  pcr ← after_recv (gpc tr);
  if bool_decide (s ≠ r ∧ ch = ch') then
    Some (upd (upd st s (set_gpc ts pcs)) r (set_rconn tr s pcr), [])
  else None.

(** Lines 180-183. *)
Definition read (st : State) (c : conn) (res : option frame)
    : option (State * list Event) :=
  t ← tasks st !! c;
  match hpc t with
  | HRead =>
      match res with
      | Some f => Some (upd st c (set_hpc t (HGot f)), [ERead c res])
      | None => Some (upd st c (handler_return t), [ERead c res])
      end
  | _ => None
  end.

(** Line 180, when the client sends a close frame with [code].  [relay]
    sets no close handler, so the library's own runs inside [ReadMessage]:
    it writes a close frame with the same code and no reason to the
    connection, and [ReadMessage] returns the close as its error. *)
Definition read_close (st : State) (c : conn) (code : Z)
    : option (State * list Event) :=
  t ← tasks st !! c;
  match hpc t with
  | HRead =>
      Some (upd st c (handler_return t), [ECloseEcho c code; ERead c None])
  | _ => None
  end.

(** Lines 184-193. *)
Definition forward (st : State) (c : conn) (ok : bool)
    : option (State * list Event) :=
  t ← tasks st !! c;
  match hpc t with
  | HGot (messageType, p) =>
      match rconn t with
      | None => Some (upd st c (handler_return t), [])
      | Some rc =>
          Some (upd st c (if ok then set_hpc t HRead else handler_return t),
                [EForward c rc messageType p ok])
      end
  | _ => None
  end.

Definition step (st : State) (a : Action) : option (State * list Event) :=
  match a with
  | AAccept c key => accept st c key
  | ABook c rnd => book st c rnd
  | AWriteSlot c ok => write_slot st c ok
  | AJoin c => join st c
  | AClose c => close st c
  | ADeadline c => deadline st c
  | ATimeout c => timeout st c
  | ADrop c => drop st c
  | AHandoff s r => handoff st s r
  | ARead c res => read st c res
  | AForward c ok => forward st c ok
  | AReadClose c code => read_close st c code
  end.

Fixpoint run (st : State) (acts : list Action) : option (State * list Event) :=
  match acts with
  | [] => Some (st, [])
  | a :: acts' =>
      match step st a with
      | None => None
      | Some (st1, evs1) =>
          match run st1 acts' with
          | None => None
          | Some (st2, evs2) => Some (st2, evs1 ++ evs2)
          end
      end
  end.

Definition reachable (st : State) : Prop :=
  ∃ acts evs, run init acts = Some (st, evs).

(** ** The allocation policy, as the specification words it *)

(** Range and attempt budget of each band. *)
Definition bands : list (Z * nat) :=
  [(10%Z, 3); ((2 ^ 8)%Z, 64); ((2 ^ 16)%Z, 1024); ((2 ^ 24)%Z, 1024)].

(** The codes sampled in one band, from position [pos] of the draws on. *)
Definition band_candidates (rnd : nat → Z) (pos : nat) (band : Z * nat)
    : list string :=
  (λ i, Itoa (Intn rnd i (fst band))) <$> seq pos (snd band).

Fixpoint all_candidates (rnd : nat → Z) (pos : nat) (bs : list (Z * nat))
    : list string :=
  match bs with
  | [] => []
  | b :: bs' => band_candidates rnd pos b ++ all_candidates rnd (pos + snd b) bs'
  end.

Definition candidates (rnd : nat → Z) : list string := all_candidates rnd 0 bands.

(** The range from which the [i]-th sample of a call is drawn. *)
Definition band_bound (i : nat) : Z :=
  if i <? 3 then 10%Z
  else if i <? 3 + 64 then (2 ^ 8)%Z
  else if i <? 3 + 64 + 1024 then (2 ^ 16)%Z
  else (2 ^ 24)%Z.

Definition is_free (m : gmap string chan) (s : string) : bool :=
  bool_decide (m !! s = None).

(** First sampled code that is not a key, [FULL] when there is none. *)
Definition freeslot_spec (m : gmap string chan) (rnd : nat → Z) : string * bool :=
  match find (is_free m) (candidates rnd) with
  | Some s => (s, true)
  | None => (EmptyString, false)
  end.

(** Scenario 1 of the specification, as a first check of the transitions. *)
Definition happy_path : list Action :=
  [AAccept 0 EmptyString; ABook 0 (λ _, 7%Z); AWriteSlot 0 true;
   AAccept 1 "7"; AJoin 1; AHandoff 0 1; AHandoff 1 0;
   ARead 0 (Some (BinaryMessage, list_byte_of_string "data"));
   AForward 0 true;
   ARead 1 (Some (TextMessage, list_byte_of_string "hi"));
   AForward 1 true].

(** The state a sequence of transitions leads to from the initial one. *)
Definition state_after (acts : list Action) : State :=
  match run init acts with
  | Some (st, _) => st
  | None => init
  end.

(** A booker holding code 7, and a second connection that asks for it. *)
Definition booked_7 : list Action :=
  [AAccept 0 EmptyString; ABook 0 (λ _, 7%Z); AWriteSlot 0 true].

Definition joiner_arrives : list Action := booked_7 ++ [AAccept 1 "7"].

(** The booker and the joiner of code 7 have exchanged their connections. *)
Definition paired_session : list Action :=
  joiner_arrives ++ [AJoin 1; AHandoff 0 1; AHandoff 1 0].

(** The write of the code to the booker fails. *)
Definition abandoned_7 : list Action :=
  [AAccept 0 EmptyString; ABook 0 (λ _, 7%Z); AWriteSlot 0 false].

(** A second connection then asks for code 7, finds it, and waits. *)
Definition joiner_waiting : list Action :=
  abandoned_7 ++ [AAccept 1 "7"; AJoin 1].

Definition joiner_timed_out : list Action :=
  joiner_waiting ++ [ADeadline 1; ATimeout 1; AClose 1].

Definition booker_timed_out : list Action :=
  booked_7 ++ [ADeadline 0; ATimeout 0; ADrop 0; AClose 0].

(** The booker of code 7 sends a frame before anyone has joined. *)
Definition early_frame : list Action :=
  booked_7 ++ [ARead 0 (Some (TextMessage, list_byte_of_string "hello"))].

Definition early_frame_handled : list Action :=
  early_frame ++ [AForward 0 true; ATimeout 0; ADrop 0; AClose 0].


(** Code 7 is booked and a connection asks for "007". *)
Definition asks_007 : list Action := booked_7 ++ [AAccept 1 "007"].

(** Both deadlines fire on the paired session; then each side sends a
    frame. *)
Definition deadline_fired : list Action :=
  paired_session ++ [ADeadline 0; ADeadline 1].

Definition late_frames : list Action :=
  [ARead 0 (Some (BinaryMessage, list_byte_of_string "late"));
   AForward 0 true;
   ARead 1 (Some (TextMessage, list_byte_of_string "later"));
   AForward 1 true].

(** The state in which the context of [c] is done and nothing else has
    changed. *)
Definition expire (st : State) (c : conn) : State :=
  match tasks st !! c with
  | Some t => upd st c (cancel t)
  | None => st
  end.

(** The transitions of the read loops. *)
Definition is_pump (a : Action) : bool :=
  match a with
  | ARead _ _ | AForward _ _ | AReadClose _ _ => true
  | _ => false
  end.

(** The transitions in which a call of the read loop of [c] returns an
    error: [ReadMessage] (line 181), with or without a close frame from the
    client, or [WriteMessage] on the remote connection (line 191). *)
Definition is_io_error (c : conn) (a : Action) : bool :=
  match a with
  | ARead c' None | AReadClose c' _ | AForward c' false => bool_decide (c' = c)
  | _ => false
  end.






(** The write of the code fails, nobody joins, and the deadline fires. *)
Definition abandoned_expired : list Action := abandoned_7 ++ [ADeadline 0].

(** ** Who holds a channel *)

Definition holds (st : State) (c : conn) (ch : chan) : Prop :=
  ∃ t, tasks st !! c = Some t ∧ sc t = Some ch.

Definition listed (st : State) (ch : chan) : Prop :=
  ∃ k, slots st !! k = Some ch.

(** A channel made by a booker is in the table under one key at most; while
    it is there only the booker has it, and it never has more than two
    holders. *)
Record ChanInv (st : State) : Prop := {
  ci_listed_lt : ∀ ch, listed st ch → ch < nchan st;
  ci_holds_lt : ∀ c ch, holds st c ch → ch < nchan st;
  ci_inj : ∀ k1 k2 ch,
      slots st !! k1 = Some ch → slots st !! k2 = Some ch → k1 = k2;
  ci_one : ∀ ch c1 c2, listed st ch → holds st c1 ch → holds st c2 ch → c1 = c2;
  ci_two : ∀ ch c1 c2 c3,
      holds st c1 ch → holds st c2 ch → holds st c3 ch →
      c1 = c2 ∨ c1 = c3 ∨ c2 = c3
}.

(** A task has no channel before its locked block, and a remote connection
    is another connection holding the same channel. *)
Record PairInv (st : State) : Prop := {
  pi_start : ∀ c t, tasks st !! c = Some t → gpc t = GStart → sc t = None;
  pi_peer : ∀ c t rc,
      tasks st !! c = Some t → rconn t = Some rc →
      rc ≠ c ∧ ∃ ch, holds st c ch ∧ holds st rc ch
}.

(** The program points at which a booker has its code in [slotkey]. *)
Definition booked (pc : GPc) : bool :=
  match pc with
  | GBookWrite | GBookSelect | GBookDrop | GBookTimedOut | GBookRecv => true
  | _ => false
  end.

Record KeyInv (st : State) : Prop := {
  ki_keys : ∀ k ch, slots st !! k = Some ch → canonical_code k = true;
  ki_booked : ∀ c t,
      tasks st !! c = Some t → booked (gpc t) = true →
      canonical_code (slotkey t) = true
}.

(** ** What a read loop has read and written *)

Definition read_by (c : conn) (e : Event) : option frame :=
  match e with
  | ERead c' (Some f) => if decide (c' = c) then Some f else None
  | _ => None
  end.

Definition delivered_by (c : conn) (e : Event) : option frame :=
  match e with
  | EForward c' _ mt p true => if decide (c' = c) then Some (mt, p) else None
  | _ => None
  end.

Definition dest_by (c : conn) (e : Event) : option conn :=
  match e with
  | EForward c' rc _ _ _ => if decide (c' = c) then Some rc else None
  | _ => None
  end.

(** Frames read from [c], frames its read loop wrote with success, and
    the connections it wrote to, each in the order of the calls. *)
Definition reads_of (c : conn) (evs : list Event) : list frame :=
  omap (read_by c) evs.

Definition delivered (c : conn) (evs : list Event) : list frame :=
  omap (delivered_by c) evs.

Definition dests (c : conn) (evs : list Event) : list conn :=
  omap (dest_by c) evs.

(** A read loop has written every frame it has read but the one in hand;
    after it returned, at most one frame read was not written. *)
Record TaskTrace (t : Task) (R D : list frame) (X : list conn) : Prop := {
  tt_rconn : ∀ rc, rconn t = Some rc → gpc t = GJoinSend ∨ gpc t = GDone;
  tt_dest : ∀ rc, rc ∈ X → rconn t = Some rc;
  tt_fifo :
    match hpc t with
    | HRead => R = D
    | HGot f => R = D ++ [f]
    | HReturned => ∃ rest, R = D ++ rest ∧ length rest ≤ 1
    end
}.

Definition TraceInv (ts : gmap conn Task) (evs : list Event) : Prop :=
  ∀ c,
    match ts !! c with
    | None => reads_of c evs = [] ∧ delivered c evs = [] ∧ dests c evs = []
    | Some t => TaskTrace t (reads_of c evs) (delivered c evs) (dests c evs)
    end.

(** ** Actions that book *)

Definition is_book (a : Action) : bool :=
  match a with ABook _ _ => true | _ => false end.

Definition no_book (acts : list Action) : bool :=
  forallb (λ a, negb (is_book a)) acts.

(** ** Proof steps *)

(** Opens an equation [f st .. = Some (st', evs)] of a transition along the
    tests the transition makes. *)
Ltac inv_step H :=
  repeat match type of H with
  | context [mbind _ ?x] =>
      let E := fresh "Et" in destruct x eqn:E; cbn [mbind option_bind] in H
  | Some _ = Some _ => injection H as <- <-
  | None = Some _ => discriminate H
  | context [match ?x with _ => _ end] =>
      let E := fresh "E" in destruct x eqn:E
  end.

Ltac unfold_step H :=
  cbn [step] in H;
  unfold accept, book, write_slot, join, close, deadline, timeout, drop,
    handoff, read, forward, read_close in H.

(** Evaluates the next transition of a run whose task is known. *)
Ltac run_task Ht :=
  cbn [run step];
  unfold deadline, timeout, drop, close, join, book, write_slot, forward, read,
    read_close;
  cbn [upd tasks slots nchan];
  rewrite ?lookup_insert_eq, ?Ht;
  cbn [mbind option_bind cancel set_gpc set_hpc handler_return
         gpc hpc ctx_done slotkey rconn sc].


(** * Further definitions *)

(** ** The slot code in the request path (line 95) *)

Fixpoint drop_str (n : nat) (s : string) : string :=
  match n, s with
  | O, _ => s
  | S n', String _ r => drop_str n' r
  | S _, EmptyString => EmptyString
  end.

(** The slice expression [s[n:]] of a string: it panics when [n] is past
    the end of [s]. *)
Definition slice_from (n : nat) (s : string) : option string :=
  if n <=? String.length s then Some (drop_str n s) else None.

(** [r.URL.Path[len("/s/"):]] *)
Definition path_slotkey (path : string) : option string :=
  slice_from (String.length "/s/") path.

(** ** How short a code is *)

(** The number of digits a sample of the [i]-th position can have. *)
Definition band_digits (i : nat) : nat :=
  if i <? 3 then 1
  else if i <? 3 + 64 then 3
  else if i <? 3 + 64 + 1024 then 5
  else 8.

(** [s] is the first free code of the schedule, found at position [i]. *)
Definition first_free_at (m : gmap string chan) (rnd : nat → Z) (i : nat)
    (s : string) : Prop :=
  candidates rnd !! i = Some s ∧ m !! s = None ∧
  ∀ j s', j < i → candidates rnd !! j = Some s' → is_Some (m !! s').

(** ** Scenarios *)

(** Code 7 is taken by a joiner and booked again by a third connection;
    then the deadline of the first booker fires and its select takes that
    case. *)
Definition rebooked_7 : list Action :=
  joiner_arrives ++
  [AJoin 1; AAccept 2 EmptyString; ABook 2 (λ _, 7%Z); AWriteSlot 2 true;
   ADeadline 0; ATimeout 0].

(** Code 7 is booked; a second booker draws 7, which is taken, and then
    3. *)
Definition two_bookings : list Action :=
  booked_7 ++
  [AAccept 1 EmptyString; ABook 1 (λ i, if Nat.eqb i 0 then 7%Z else 3%Z);
   AWriteSlot 1 true].


(** ** Calls recorded for a connection *)


Definition code_by (c : conn) (e : Event) : option (Z * list Byte.byte) :=
  match e with
  | EWriteSlot c' mt p _ => if decide (c' = c) then Some (mt, p) else None
  | _ => None
  end.



Definition codes_of (c : conn) (evs : list Event) : list (Z * list Byte.byte) :=
  omap (code_by c) evs.




(** A connection gets its code once at most, as a text frame holding the
    code its goroutine has in [slotkey]; before that frame the goroutine has
    not passed line 125. *)
Definition CodeInv (ts : gmap conn Task) (evs : list Event) : Prop :=
  ∀ c,
    match ts !! c with
    | None => codes_of c evs = []
    | Some t =>
        (codes_of c evs = [] ∨
         (codes_of c evs = [(TextMessage, list_byte_of_string (slotkey t))] ∧
          canonical_code (slotkey t) = true)) ∧
        (codes_of c evs ≠ [] → gpc t ≠ GStart ∧ gpc t ≠ GBookWrite)
    end.

(** ** Bookers and joiners of a channel *)

(** The program points of a joiner that has taken its channel. *)
Definition joining (pc : GPc) : bool :=
  match pc with
  | GJoinSelect | GJoinTimedOut | GJoinSend => true
  | _ => false
  end.

(** How the two sides of a channel stand to each other.  A remote
    connection is had only after the receive; the channel of a joiner is
    out of the table and has no other joiner; a booker waiting to receive
    has a joiner that got its connection and is about to send; and the
    connection a task has received belongs to a booker waiting to receive
    or to a finished goroutine that has received this task's in return. *)
Record RoleInv (st : State) : Prop := {
  ri_rconn : ∀ c t rc,
      tasks st !! c = Some t → rconn t = Some rc →
      gpc t = GJoinSend ∨ gpc t = GDone;
  ri_unlisted : ∀ c t ch,
      tasks st !! c = Some t → joining (gpc t) = true → sc t = Some ch →
      ¬ listed st ch;
  ri_joiner : ∀ c1 t1 c2 t2 ch,
      tasks st !! c1 = Some t1 → tasks st !! c2 = Some t2 →
      joining (gpc t1) = true → joining (gpc t2) = true →
      sc t1 = Some ch → sc t2 = Some ch → c1 = c2;
  ri_recv : ∀ r tr ch,
      tasks st !! r = Some tr → gpc tr = GBookRecv → sc tr = Some ch →
      ∃ x tx, tasks st !! x = Some tx ∧ gpc tx = GJoinSend ∧
              sc tx = Some ch ∧ rconn tx = Some r;
  ri_sent : ∀ d td c tc,
      tasks st !! d = Some td → rconn td = Some c → tasks st !! c = Some tc →
      gpc tc = GBookRecv ∨ (gpc tc = GDone ∧ rconn tc = Some d)
}.

(** A joiner whose select took the [ctx.Done()] case. *)
Definition abandoned (t : Task) : Prop :=
  (gpc t = GJoinTimedOut ∨ gpc t = GJoinSend) ∧ rconn t = None.

(** The entry of a channel is under the code of its holder, and the
    holders of a channel have the same code. *)
Record OwnerInv (st : State) : Prop := {
  oi_key : ∀ k ch c t,
      slots st !! k = Some ch → tasks st !! c = Some t → sc t = Some ch →
      slotkey t = k;
  oi_same : ∀ ch c1 t1 c2 t2,
      tasks st !! c1 = Some t1 → tasks st !! c2 = Some t2 →
      sc t1 = Some ch → sc t2 = Some ch → slotkey t1 = slotkey t2
}.
(** * Proofs *)

(** ** First checks *)

Example Itoa_7 : Itoa 7 = "7"%string.
Proof. reflexivity. Qed.

Example Itoa_16777215 : Itoa 16777215 = "16777215"%string.
Proof. reflexivity. Qed.

Example Itoa_neg : Itoa (-42) = "-42"%string.
Proof. reflexivity. Qed.

Example freeslot_empty : freeslot ∅ (λ _, 7%Z) = ("7"%string, true).
Proof. vm_compute. reflexivity. Qed.

Example freeslot_full :
  freeslot {[ "0"%string := 0 ]} (λ _, 0%Z) = (EmptyString, false).
Proof. vm_compute. reflexivity. Qed.

Example happy_path_events :
  snd <$> run init happy_path =
  Some [EWriteSlot 0 TextMessage (list_byte_of_string "7") true;
        ERead 0 (Some (BinaryMessage, list_byte_of_string "data"));
        EForward 0 1 BinaryMessage (list_byte_of_string "data") true;
        ERead 1 (Some (TextMessage, list_byte_of_string "hi"));
        EForward 1 0 TextMessage (list_byte_of_string "hi") true].
Proof. vm_compute. reflexivity. Qed.


(** ** The allocator *)

Section Allocator.

Variable m : gmap string chan.
Variable rnd : nat → Z.

Lemma try_band_find bound tries pos :
  fst (try_band m rnd bound tries pos)
  = find (is_free m) (band_candidates rnd pos (bound, tries)).
Proof.
  revert pos. induction tries as [|n IH]; intros pos; [reflexivity|].
  unfold band_candidates in *. cbn [try_band seq fmap list_fmap find fst snd] in *.
  unfold is_free at 1.
  destruct (m !! Itoa (Intn rnd pos bound)) eqn:E.
  - rewrite bool_decide_eq_false_2 by congruence. apply IH.
  - rewrite bool_decide_eq_true_2 by reflexivity. reflexivity.
Qed.

Lemma try_band_pos bound tries pos :
  fst (try_band m rnd bound tries pos) = None →
  snd (try_band m rnd bound tries pos) = pos + tries.
Proof.
  revert pos. induction tries as [|n IH]; intros pos; cbn [try_band].
  - intros _. cbn. lia.
  - destruct (m !! Itoa (Intn rnd pos bound)); [|discriminate].
    intros H. rewrite IH by exact H. lia.
Qed.

Lemma find_app_l {A} (f : A → bool) (l1 l2 : list A) :
  find f (l1 ++ l2)
  = match find f l1 with Some x => Some x | None => find f l2 end.
Proof.
  induction l1 as [|x l1 IH]; [reflexivity|].
  cbn. destruct (f x); [reflexivity | exact IH].
Qed.

Lemma freeslot_refines : freeslot m rnd = freeslot_spec m rnd.
Proof.
  unfold freeslot, freeslot_spec, candidates, bands.
  cbn [all_candidates snd]. rewrite app_nil_r, !find_app_l.
  destruct (try_band m rnd 10 3 0) as [o1 p1] eqn:E1.
  pose proof (try_band_find 10 3 0) as F1.
  pose proof (try_band_pos 10 3 0) as P1.
  rewrite E1 in F1, P1. cbn [fst snd] in F1, P1. rewrite <- F1.
  destruct o1 as [s1|]; [reflexivity|]. rewrite P1 by reflexivity.
  destruct (try_band m rnd (2 ^ 8) 64 (0 + 3)) as [o2 p2] eqn:E2.
  pose proof (try_band_find (2 ^ 8) 64 (0 + 3)) as F2.
  pose proof (try_band_pos (2 ^ 8) 64 (0 + 3)) as P2.
  rewrite E2 in F2, P2. cbn [fst snd] in F2, P2. rewrite <- F2.
  destruct o2 as [s2|]; [reflexivity|]. rewrite P2 by reflexivity.
  destruct (try_band m rnd (2 ^ 16) 1024 (0 + 3 + 64)) as [o3 p3] eqn:E3.
  pose proof (try_band_find (2 ^ 16) 1024 (0 + 3 + 64)) as F3.
  pose proof (try_band_pos (2 ^ 16) 1024 (0 + 3 + 64)) as P3.
  rewrite E3 in F3, P3. cbn [fst snd] in F3, P3. rewrite <- F3.
  destruct o3 as [s3|]; [reflexivity|]. rewrite P3 by reflexivity.
  destruct (try_band m rnd (2 ^ 24) 1024 (0 + 3 + 64 + 1024)) as [o4 p4] eqn:E4.
  pose proof (try_band_find (2 ^ 24) 1024 (0 + 3 + 64 + 1024)) as F4.
  rewrite E4 in F4. cbn [fst] in F4. rewrite <- F4.
  destruct o4; reflexivity.
Qed.

Lemma candidates_length : length (candidates rnd) = 3 + 64 + 1024 + 1024.
Proof.
  unfold candidates, bands. cbn [all_candidates snd].
  rewrite !length_app. unfold band_candidates.
  rewrite !length_fmap, !length_seq. reflexivity.
Qed.

Lemma freeslot_ok_free s :
  freeslot m rnd = (s, true) → m !! s = None ∧ In s (candidates rnd).
Proof.
  rewrite freeslot_refines. unfold freeslot_spec.
  destruct (find (is_free m) (candidates rnd)) as [s'|] eqn:E; [|discriminate].
  intros [= <-]. apply find_some in E as [Hin Hfree].
  split; [|exact Hin]. unfold is_free in Hfree.
  by apply bool_decide_eq_true_1 in Hfree.
Qed.

Lemma freeslot_full_iff :
  snd (freeslot m rnd) = false ↔ ∀ s, In s (candidates rnd) → is_Some (m !! s).
Proof.
  rewrite freeslot_refines. unfold freeslot_spec.
  destruct (find (is_free m) (candidates rnd)) as [s'|] eqn:E; cbn [snd]; split.
  - discriminate.
  - intros H. apply find_some in E as [Hin Hfree].
    apply H in Hin as [ch Hch]. unfold is_free in Hfree.
    apply bool_decide_eq_true_1 in Hfree. congruence.
  - intros _ s Hin. pose proof (find_none _ _ E s Hin) as Hn.
    unfold is_free in Hn. apply bool_decide_eq_false_1 in Hn.
    destruct (m !! s); [eauto | contradiction].
  - reflexivity.
Qed.

End Allocator.

(** ** Decimal codes *)

Module StrconvFacts.

Local Open Scope Z_scope.

Lemma append_cons_str a (s t : string) :
  String.append (String a s) t = String a (String.append s t).
Proof. reflexivity. Qed.

Lemma append_nil_l_str (t : string) : String.append EmptyString t = t.
Proof. reflexivity. Qed.

Lemma append_assoc_str (s t u : string) :
  String.append (String.append s t) u = String.append s (String.append t u).
Proof.
  induction s as [|a s IH]; [reflexivity|].
  rewrite !append_cons_str. f_equal. exact IH.
Qed.

Lemma append_nil_r_str (s : string) : String.append s EmptyString = s.
Proof.
  induction s as [|a s IH]; [reflexivity|].
  rewrite append_cons_str. f_equal. exact IH.
Qed.

(** The accumulator of [format_dec] is only ever extended in front. *)
Lemma format_dec_acc fuel u acc :
  format_dec fuel u acc = String.append (format_dec fuel u EmptyString) acc.
Proof.
  revert u acc. induction fuel as [|f IH]; intros u acc; cbn [format_dec].
  - reflexivity.
  - destruct (u / 10 =? 0); [reflexivity|].
    rewrite (IH _ (String _ acc)), (IH _ (String _ EmptyString)).
    by rewrite append_assoc_str.
Qed.

Lemma format_dec_S fuel u :
  format_dec (S fuel) u EmptyString
  = if u / 10 =? 0 then String (digit_char (u mod 10)) EmptyString
    else String.append (format_dec fuel (u / 10) EmptyString)
           (String (digit_char (u mod 10)) EmptyString).
Proof. cbn [format_dec]. destruct (u / 10 =? 0); [reflexivity|]. apply format_dec_acc. Qed.

Lemma dec_value_app s t acc :
  dec_value (String.append s t) acc = dec_value t (dec_value s acc).
Proof.
  revert acc. induction s as [|a s IH]; intros acc; [reflexivity|].
  rewrite append_cons_str. cbn [dec_value]. apply IH.
Qed.

Lemma all_digits_app s t :
  all_digits (String.append s t) = all_digits s && all_digits t.
Proof.
  induction s as [|a s IH]; [reflexivity|].
  rewrite append_cons_str. cbn [all_digits]. by rewrite IH, andb_assoc.
Qed.

Lemma digit_cases d : 0 ≤ d < 10 →
  d = 0 ∨ d = 1 ∨ d = 2 ∨ d = 3 ∨ d = 4 ∨ d = 5 ∨ d = 6 ∨ d = 7 ∨ d = 8 ∨ d = 9.
Proof. lia. Qed.

Lemma digit_char_is_digit d : 0 ≤ d < 10 → is_digit (digit_char d) = true.
Proof.
  intros H.
  destruct (digit_cases d H)
    as [->|[->|[->|[->|[->|[->|[->|[->|[->| ->]]]]]]]]]; reflexivity.
Qed.

Lemma digit_val_char d : 0 ≤ d < 10 → digit_val (digit_char d) = d.
Proof.
  intros H.
  destruct (digit_cases d H)
    as [->|[->|[->|[->|[->|[->|[->|[->|[->| ->]]]]]]]]]; reflexivity.
Qed.

Lemma digit_char_nonzero d : 0 < d < 10 → Ascii.eqb (digit_char d) "0" = false.
Proof.
  intros H. assert (H' : 0 ≤ d < 10) by lia.
  destruct (digit_cases d H') as [->|[->|[->|[->|[->|[->|[->|[->|[->| ->]]]]]]]]];
    first [lia | reflexivity].
Qed.

Lemma is_digit_range a : is_digit a = true → 0 ≤ digit_val a < 10.
Proof.
  unfold is_digit, digit_val. intros H.
  apply andb_true_iff in H as [H1 H2].
  apply Nat.leb_le in H1, H2. lia.
Qed.

Lemma digit_char_val a : is_digit a = true → digit_char (digit_val a) = a.
Proof.
  unfold is_digit, digit_val, digit_char. intros H.
  apply andb_true_iff in H as [H1 H2]. apply Nat.leb_le in H1, H2.
  replace (48 + Z.to_nat (Z.of_nat (nat_of_ascii a) - 48))%nat
    with (nat_of_ascii a) by lia.
  apply ascii_nat_embedding.
Qed.

Lemma format_dec_digits fuel u : 0 ≤ u → all_digits (format_dec fuel u EmptyString) = true.
Proof.
  revert u. induction fuel as [|f IH]; intros u Hu; [reflexivity|].
  rewrite format_dec_S.
  assert (Hd : is_digit (digit_char (u mod 10)) = true)
    by (apply digit_char_is_digit, Z.mod_pos_bound; lia).
  destruct (u / 10 =? 0).
  - cbn. by rewrite Hd.
  - rewrite all_digits_app, IH by (apply Z.div_pos; lia). cbn. by rewrite Hd.
Qed.

Lemma format_dec_value fuel u :
  0 ≤ u < 10 ^ Z.of_nat fuel → dec_value (format_dec fuel u EmptyString) 0 = u.
Proof.
  revert u. induction fuel as [|f IH]; intros u Hu.
  - cbn in *. lia.
  - rewrite format_dec_S.
    assert (Hm : 0 ≤ u mod 10 < 10) by (apply Z.mod_pos_bound; lia).
    pose proof (Z.div_mod u 10 ltac:(lia)) as Hdm.
    destruct (u / 10 =? 0) eqn:E.
    + apply Z.eqb_eq in E. cbn. rewrite digit_val_char by exact Hm. lia.
    + rewrite dec_value_app, IH.
      * cbn. rewrite digit_val_char by exact Hm. lia.
      * rewrite Nat2Z.inj_succ, Z.pow_succ_r in Hu by lia.
        split; [apply Z.div_pos; lia | apply Z.div_lt_upper_bound; lia].
Qed.

(** A positive number is printed without a leading zero. *)
Lemma format_dec_head fuel u :
  0 < u < 10 ^ Z.of_nat fuel →
  ∃ a r, format_dec fuel u EmptyString = String a r ∧ Ascii.eqb a "0" = false.
Proof.
  revert u. induction fuel as [|f IH]; intros u Hu.
  - cbn in Hu. lia.
  - rewrite format_dec_S.
    pose proof (Z.div_mod u 10 ltac:(lia)) as Hdm.
    assert (Hm : 0 ≤ u mod 10 < 10) by (apply Z.mod_pos_bound; lia).
    destruct (u / 10 =? 0) eqn:E.
    + apply Z.eqb_eq in E. eexists _, _. split; [reflexivity|].
      apply digit_char_nonzero. lia.
    + apply Z.eqb_neq in E.
      rewrite Nat2Z.inj_succ, Z.pow_succ_r in Hu by lia.
      destruct (IH (u / 10)) as (a & r & -> & Ha).
      * pose proof (Z.div_pos u 10 ltac:(lia) ltac:(lia)).
        split; [lia | apply Z.div_lt_upper_bound; lia].
      * eexists _, _. split; [reflexivity | exact Ha].
Qed.

Lemma no_leading_zero_head a r :
  Ascii.eqb a "0" = false → no_leading_zero (String a r) = true.
Proof. intros H. cbn. destruct r; [reflexivity | by rewrite H]. Qed.

Lemma Itoa_nonneg v : 0 ≤ v → Itoa v = format_dec 20 v EmptyString.
Proof. intros H. unfold Itoa. destruct (v <? 0) eqn:E; [lia | reflexivity]. Qed.

(** What [Itoa] prints for a slot number is a canonical code, and reads
    back as that number. *)
Lemma Itoa_canonical v :
  0 ≤ v < 2 ^ 24 → canonical_code (Itoa v) = true ∧ dec_value (Itoa v) 0 = v.
Proof.
  intros Hv. rewrite Itoa_nonneg by lia.
  assert (Hval : dec_value (format_dec 20 v EmptyString) 0 = v)
    by (apply format_dec_value; lia).
  split; [|exact Hval]. unfold canonical_code.
  rewrite format_dec_digits, Hval by lia.
  replace (v <? 2 ^ 24) with true by (symmetry; apply Z.ltb_lt; lia).
  rewrite andb_true_r, andb_true_l.
  destruct (Z.eq_dec v 0) as [->|Hne]; [reflexivity|].
  destruct (format_dec_head 20 v) as (a & r & -> & Ha); [lia|].
  by apply no_leading_zero_head.
Qed.

Lemma Itoa_inj v w : 0 ≤ v < 2 ^ 24 → 0 ≤ w < 2 ^ 24 → Itoa v = Itoa w → v = w.
Proof.
  intros Hv Hw E.
  destruct (Itoa_canonical v Hv) as [_ <-], (Itoa_canonical w Hw) as [_ <-].
  by rewrite E.
Qed.

(** The other direction: a canonical code is what [Itoa] prints for its
    value, so the codes [Itoa] can produce for slot numbers are exactly the
    canonical ones. *)

Lemma string_snoc_cases (s : string) :
  s = EmptyString ∨ ∃ t a, s = String.append t (String a EmptyString).
Proof.
  induction s as [|b s IH]; [by left | right].
  destruct IH as [-> | (t & a & ->)].
  - by exists EmptyString, b.
  - by exists (String b t), a.
Qed.

Lemma dec_value_ge s acc :
  all_digits s = true → 0 ≤ acc → acc ≤ dec_value s acc.
Proof.
  revert acc. induction s as [|a s IH]; intros acc Hd Hacc; cbn [dec_value]; [lia|].
  cbn [all_digits] in Hd. apply andb_true_iff in Hd as [Ha Hs].
  pose proof (is_digit_range a Ha).
  etrans; [|apply IH; [exact Hs | lia]]. lia.
Qed.

Lemma dec_value_head_pos a r :
  all_digits (String a r) = true → Ascii.eqb a "0" = false →
  1 ≤ dec_value (String a r) 0.
Proof.
  cbn [all_digits dec_value]. intros Hd Ha.
  apply andb_true_iff in Hd as [Hda Hr].
  pose proof (is_digit_range a Hda) as Hrange.
  assert (digit_val a ≠ 0).
  { intros E. pose proof (digit_char_val a Hda) as Hc. rewrite E in Hc.
    rewrite <- Hc in Ha. discriminate. }
  etrans; [|apply dec_value_ge; [exact Hr | lia]]. lia.
Qed.

Lemma canonical_roundtrip fuel s :
  all_digits s = true → no_leading_zero s = true →
  dec_value s 0 < 10 ^ Z.of_nat (S fuel) →
  format_dec (S fuel) (dec_value s 0) EmptyString = s.
Proof.
  revert s. induction fuel as [|f IH]; intros s Hd Hz Hv;
    (destruct (string_snoc_cases s) as [-> | (t & a & ->)]; [discriminate|]);
    rewrite all_digits_app in Hd; apply andb_true_iff in Hd as [Ht Ha];
    cbn [all_digits] in Ha; rewrite andb_true_r in Ha;
    pose proof (is_digit_range a Ha) as Hrange;
    rewrite dec_value_app in Hv |- *; cbn [dec_value] in Hv |- *;
    set (vt := dec_value t 0) in *;
    assert (Hdiv : (10 * vt + digit_val a) / 10 = vt)
      by (symmetry; apply Z.div_unique with (r := digit_val a); lia);
    assert (Hmod : (10 * vt + digit_val a) mod 10 = digit_val a)
      by (symmetry; apply Z.mod_unique with (q := vt); lia);
    rewrite format_dec_S, Hdiv, Hmod, digit_char_val by exact Ha;
    (destruct t as [|b r];
      [ subst vt; reflexivity
      | assert (Hb : Ascii.eqb b "0" = false)
          by (rewrite append_cons_str in Hz; cbn [no_leading_zero] in Hz;
              destruct r; cbn in Hz; by apply negb_true_iff in Hz);
        pose proof (dec_value_head_pos b r Ht Hb) as Hpos; fold vt in Hpos;
        replace (vt =? 0) with false by (symmetry; apply Z.eqb_neq; lia) ]).
  - change (10 ^ Z.of_nat 1) with 10 in Hv. lia.
  - subst vt. rewrite IH; [reflexivity | exact Ht | by apply no_leading_zero_head |].
    rewrite Nat2Z.inj_succ, Z.pow_succ_r in Hv by lia. lia.
Qed.

Lemma canonical_is_Itoa s :
  canonical_code s = true →
  0 ≤ dec_value s 0 < 2 ^ 24 ∧ Itoa (dec_value s 0) = s.
Proof.
  unfold canonical_code. intros H.
  apply andb_true_iff in H as [H Hlt]. apply andb_true_iff in H as [Hd Hz].
  apply Z.ltb_lt in Hlt.
  assert (0 ≤ dec_value s 0) by (apply dec_value_ge; [exact Hd | lia]).
  split; [lia|]. rewrite Itoa_nonneg by lia.
  apply canonical_roundtrip; [exact Hd | exact Hz | lia].
Qed.

Lemma canonical_iff s :
  canonical_code s = true ↔ ∃ v, 0 ≤ v < 2 ^ 24 ∧ s = Itoa v.
Proof.
  split.
  - intros H. apply canonical_is_Itoa in H as [Hr E]. eauto.
  - intros (v & Hv & ->). by apply Itoa_canonical.
Qed.

End StrconvFacts.

(** ** Runs and invariants *)

Lemma run_app st acts1 acts2 :
  run st (acts1 ++ acts2)
  = match run st acts1 with
    | None => None
    | Some (st1, evs1) =>
        match run st1 acts2 with
        | None => None
        | Some (st2, evs2) => Some (st2, evs1 ++ evs2)
        end
    end.
Proof.
  revert st. induction acts1 as [|a acts1 IH]; intros st; cbn [run app].
  - destruct (run st acts2) as [[st2 evs2]|]; reflexivity.
  - destruct (step st a) as [[st1 evs1]|]; [|reflexivity].
    rewrite IH. destruct (run st1 acts1) as [[st2 evs2]|]; [|reflexivity].
    destruct (run st2 acts2) as [[st3 evs3]|]; [|reflexivity].
    by rewrite app_assoc.
Qed.

Lemma run_invariant (P : State → Prop) :
  (∀ st a st' evs, P st → step st a = Some (st', evs) → P st') →
  ∀ acts st st' evs, P st → run st acts = Some (st', evs) → P st'.
Proof.
  intros Hstep. induction acts as [|a acts IH]; intros st st' evs HP Hrun;
    cbn [run] in Hrun.
  - by injection Hrun as <- _.
  - destruct (step st a) as [[st1 evs1]|] eqn:E; [|discriminate].
    destruct (run st1 acts) as [[st2 evs2]|] eqn:E2; [|discriminate].
    injection Hrun as <- _. eapply IH; [|exact E2]. eapply Hstep; eauto.
Qed.

Lemma reachable_invariant (P : State → Prop) :
  P init →
  (∀ st a st' evs, P st → step st a = Some (st', evs) → P st') →
  ∀ st, reachable st → P st.
Proof.
  intros H0 Hstep st (acts & evs & Hrun).
  exact (run_invariant P Hstep acts init st evs H0 Hrun).
Qed.

Lemma reachable_run st acts st' evs :
  reachable st → run st acts = Some (st', evs) → reachable st'.
Proof.
  intros (acts0 & evs0 & H0) H. exists (acts0 ++ acts), (evs0 ++ evs).
  by rewrite run_app, H0, H.
Qed.

Lemma ChanInv_init : ChanInv init.
Proof.
  split.
  - intros ch [k Hk]. cbn in Hk. by rewrite lookup_empty in Hk.
  - intros c ch (t & Ht & _). cbn in Ht. by rewrite lookup_empty in Ht.
  - intros k1 k2 ch Hk. cbn in Hk. by rewrite lookup_empty in Hk.
  - intros ch c1 c2 [k Hk]. cbn in Hk. by rewrite lookup_empty in Hk.
  - intros ch c1 c2 c3 (t & Ht & _). cbn in Ht. by rewrite lookup_empty in Ht.
Qed.

(** Fewer entries and fewer holders keep the invariant. *)
Lemma ChanInv_mono st st' :
  (∀ k ch, slots st' !! k = Some ch → slots st !! k = Some ch) →
  (∀ c ch, holds st' c ch → holds st c ch) →
  nchan st ≤ nchan st' →
  ChanInv st → ChanInv st'.
Proof.
  intros Hs Hh Hn [I1 I2 I3 I4 I5].
  assert (Hl : ∀ ch, listed st' ch → listed st ch)
    by (intros ch [k Hk]; exists k; eauto).
  split.
  - intros ch H. apply Hl, I1 in H. lia.
  - intros c ch H. apply Hh, I2 in H. lia.
  - eauto.
  - eauto.
  - eauto.
Qed.

Lemma holds_upd st c t c' ch :
  holds (upd st c t) c' ch ↔
  (c' = c ∧ sc t = Some ch) ∨ (c' ≠ c ∧ holds st c' ch).
Proof.
  unfold holds, upd. cbn [tasks]. split.
  - intros (t' & Ht & Hsc). apply lookup_insert_Some in Ht as [[-> ->]|[Hne Ht]].
    + by left.
    + right. split; [done | eauto].
  - intros [[-> Hsc] | [Hne (t' & Ht & Hsc)]].
    + exists t. by rewrite lookup_insert_eq.
    + exists t'. by rewrite lookup_insert_ne.
Qed.

(** A transition that leaves the table alone and does not change what its
    task holds. *)
Lemma ChanInv_upd st c t t' :
  tasks st !! c = Some t → sc t' = sc t → ChanInv st → ChanInv (upd st c t').
Proof.
  intros Ht Hsc. apply ChanInv_mono; [done | | done].
  intros c' ch [[-> H] | [_ H]]%holds_upd; [|done].
  exists t. split; [done | congruence].
Qed.

Lemma ChanInv_step st a st' evs :
  ChanInv st → step st a = Some (st', evs) → ChanInv st'.
Proof.
  intros I H. destruct a; unfold_step H; inv_step H;
    try (eapply ChanInv_upd; by eauto).
  - (* accept *)
    revert I. apply ChanInv_mono; [done | | done].
    intros c' ch [[-> H] | [_ H]]%holds_upd; [discriminate | done].
  - (* book: a fresh channel enters the table *)
    destruct I as [I1 I2 I3 I4 I5].
    assert (Hnew : ∀ c' ch,
      holds (mkState (<[s:=nchan st]> (slots st))
               (<[c:=mkTask s (rconn t) (Some (nchan st)) GBookWrite (hpc t)
                       (ctx_done t)]> (tasks st)) (S (nchan st))) c' ch →
      (c' = c ∧ ch = nchan st) ∨ (c' ≠ c ∧ holds st c' ch)).
    { intros c' ch (t' & Ht' & Hsc). cbn [tasks] in Ht'.
      apply lookup_insert_Some in Ht' as [[-> <-]|[Hne Ht']].
      - left. cbn in Hsc. by injection Hsc as <-.
      - right. split; [done|]. by exists t'. }
    assert (Hlist : ∀ k ch, <[s:=nchan st]> (slots st) !! k = Some ch →
      (k = s ∧ ch = nchan st) ∨ slots st !! k = Some ch).
    { intros k ch [[-> <-]|[_ Hk]]%lookup_insert_Some; eauto. }
    assert (Hfresh_l : ¬ listed st (nchan st)) by (intros H%I1; lia).
    assert (Hfresh_h : ∀ c', ¬ holds st c' (nchan st)) by (intros c' H%I2; lia).
    split; cbn [slots nchan].
    + intros ch [k Hk]. cbn [slots] in Hk.
      apply Hlist in Hk as [[_ ->]|Hk]; [lia|].
      assert (ch < nchan st) by (apply I1; by exists k). lia.
    + intros c' ch [[_ ->]|[_ H]]%Hnew; [lia|]. apply I2 in H. lia.
    + intros k1 k2 ch [[-> ->]|H1]%Hlist [[-> Ech]|H2]%Hlist; try done.
      * exfalso. apply Hfresh_l. by exists k2.
      * exfalso. apply Hfresh_l. exists k1. by rewrite <- Ech.
      * eauto.
    + intros ch c1 c2 [k Hk]. cbn [slots] in Hk.
      intros [[-> ->]|[_ H1]]%Hnew [[-> Ech]|[_ H2]]%Hnew; try done.
      * by apply Hfresh_h in H2.
      * subst ch. by apply Hfresh_h in H1.
      * apply Hlist in Hk as [[_ ->]|Hk]; [by apply Hfresh_h in H1|].
        eapply I4; [by exists k | done | done].
    + intros ch c1 c2 c3 [[-> ->]|[_ H1]]%Hnew [[-> Ech2]|[_ H2]]%Hnew
        [[-> Ech3]|[_ H3]]%Hnew; subst; eauto;
        try (exfalso; eapply Hfresh_h; eassumption).
  - (* join: the channel leaves the table and gets its second holder *)
    rename c0 into ch0. destruct I as [I1 I2 I3 I4 I5].
    assert (Hnew : ∀ c' ch,
      holds (mkState (delete (slotkey t) (slots st))
               (<[c:=mkTask (slotkey t) (rconn t) (Some ch0) GJoinSelect (hpc t)
                       (ctx_done t)]> (tasks st)) (nchan st)) c' ch →
      (c' = c ∧ ch = ch0) ∨ (c' ≠ c ∧ holds st c' ch)).
    { intros c' ch (t' & Ht' & Hsc). cbn [tasks] in Ht'.
      apply lookup_insert_Some in Ht' as [[-> <-]|[Hne Ht']].
      - left. cbn in Hsc. by injection Hsc as <-.
      - right. split; [done|]. by exists t'. }
    assert (Hl0 : listed st ch0) by (by exists (slotkey t)).
    split; cbn [slots nchan].
    + intros ch [k Hk]. cbn [slots] in Hk.
      apply lookup_delete_Some in Hk as [_ Hk]. apply I1. by exists k.
    + intros c' ch [[_ ->]|[_ H]]%Hnew; [by apply I1 | by eapply I2].
    + intros k1 k2 ch [_ H1]%lookup_delete_Some [_ H2]%lookup_delete_Some. eauto.
    + intros ch c1 c2 [k Hk]. cbn [slots] in Hk.
      apply lookup_delete_Some in Hk as [Hne Hk].
      assert (ch ≠ ch0) by (intros ->; apply Hne; eauto).
      intros [[_ ->]|[_ H1]]%Hnew [[_ Ech]|[_ H2]]%Hnew; try done.
      eapply I4; [by exists k | done | done].
    + intros ch c1 c2 c3 [[-> ->]|[N1 H1]]%Hnew [[-> Ech2]|[N2 H2]]%Hnew
        [[-> Ech3]|[N3 H3]]%Hnew; subst; eauto.
  - (* drop *)
    revert I. apply ChanInv_mono; cbn [slots nchan]; [| |done].
    + by intros k ch [_ H]%lookup_delete_Some.
    + intros c' ch (t' & Ht' & Hsc). cbn [tasks] in Ht'.
      apply lookup_insert_Some in Ht' as [[-> <-]|[Hne Ht']]; [|by exists t'].
      by exists t.
  - (* handoff *)
    apply (ChanInv_upd _ r t0); [|reflexivity|].
    + cbn [upd tasks]. apply bool_decide_eq_true_1 in E as [Hne _].
      by rewrite lookup_insert_ne.
    + eapply ChanInv_upd; by eauto.
  - (* forward *)
    destruct ok; eapply ChanInv_upd; by eauto.
Qed.

Lemma reachable_ChanInv st : reachable st → ChanInv st.
Proof. apply reachable_invariant; [apply ChanInv_init | apply ChanInv_step]. Qed.

(** ** Keys of the table *)

Lemma candidates_canonical rnd s :
  In s (candidates rnd) → canonical_code s = true.
Proof.
  assert (Hband : ∀ pos b n, (0 < b ≤ 2 ^ 24)%Z →
            In s (band_candidates rnd pos (b, n)) → canonical_code s = true).
  { intros pos b n Hb Hin. apply list_elem_of_In in Hin.
    unfold band_candidates in Hin. cbn [fst snd] in Hin.
    apply list_elem_of_fmap in Hin as (i & -> & _).
    apply StrconvFacts.Itoa_canonical. unfold Intn.
    pose proof (Z.mod_pos_bound (rnd i) b). lia. }
  unfold candidates, bands. cbn [all_candidates].
  rewrite !in_app_iff. intros [H|[H|[H|[H|[]]]]];
    (eapply Hband; [|exact H]); lia.
Qed.

Lemma freeslot_canonical m rnd s :
  freeslot m rnd = (s, true) → canonical_code s = true.
Proof. intros [_ H]%freeslot_ok_free. by apply candidates_canonical in H. Qed.

Lemma KeyInv_upd st c t t' :
  tasks st !! c = Some t → slotkey t' = slotkey t →
  (booked (gpc t') = true → booked (gpc t) = true) →
  KeyInv st → KeyInv (upd st c t').
Proof.
  intros Ht Hk Hb [I1 I2]. split; [exact I1|].
  intros c' t'' Ht'' Hb''. cbn [upd tasks] in Ht''.
  apply lookup_insert_Some in Ht'' as [[-> <-]|[_ Ht'']]; [|eauto].
  rewrite Hk. eauto.
Qed.

Lemma KeyInv_step st a st' evs :
  KeyInv st → step st a = Some (st', evs) → KeyInv st'.
Proof.
  intros I H. destruct a; unfold_step H; inv_step H;
    try (eapply KeyInv_upd; by eauto).
  - (* accept *)
    destruct I as [I1 I2]. split; [exact I1|].
    intros c' t' Ht' Hb. cbn [upd tasks] in Ht'.
    apply lookup_insert_Some in Ht' as [[-> <-]|[_ Ht']]; [discriminate | eauto].
  - (* book *)
    destruct I as [I1 I2]. pose proof (freeslot_canonical _ _ _ E1) as Hs.
    split; cbn [slots tasks].
    + intros k ch [[<- _]|[_ Hk]]%lookup_insert_Some; eauto.
    + intros c' t' [[-> <-]|[_ Ht']]%lookup_insert_Some Hb; eauto.
  - (* write_slot *)
    eapply KeyInv_upd; eauto. intros _. by rewrite E.
  - (* join *)
    destruct I as [I1 I2]. split; cbn [slots tasks].
    + intros k ch [_ Hk]%lookup_delete_Some. eauto.
    + intros c' t' [[-> <-]|[_ Ht']]%lookup_insert_Some Hb; [discriminate | eauto].
  - (* timeout of a booker *)
    eapply KeyInv_upd; eauto. intros _. by rewrite E0.
  - (* drop *)
    destruct I as [I1 I2]. split; cbn [slots tasks].
    + intros k ch [_ Hk]%lookup_delete_Some. eauto.
    + intros c' t' [[-> <-]|[_ Ht']]%lookup_insert_Some Hb; [|eauto].
      cbn. apply (I2 c' t); [done | by rewrite E].
  - (* handoff *)
    apply bool_decide_eq_true_1 in E as [Hne _].
    apply (KeyInv_upd _ r t0);
      [cbn [upd tasks]; by rewrite lookup_insert_ne | done | |].
    + destruct (gpc t0); try discriminate; cbn in Et4; injection Et4 as <-; done.
    + apply (KeyInv_upd _ s t); [done | done | | done].
      destruct (gpc t); try discriminate; cbn in Et3; injection Et3 as <-; done.
  - (* forward *)
    destruct ok; eapply KeyInv_upd; by eauto.
Qed.

Lemma KeyInv_init : KeyInv init.
Proof. split; cbn; intros *; by rewrite lookup_empty. Qed.

Lemma reachable_KeyInv st : reachable st → KeyInv st.
Proof. apply reachable_invariant; [apply KeyInv_init | apply KeyInv_step]. Qed.

(** ** A code that is absent stays absent until it is booked again *)

Lemma step_absent st a st' evs k :
  step st a = Some (st', evs) → is_book a = false →
  slots st !! k = None → slots st' !! k = None.
Proof.
  intros H Hb Hk. destruct a; try discriminate Hb; unfold_step H; inv_step H;
    cbn [upd slots]; try done; by apply lookup_delete_None; right.
Qed.

Lemma run_absent acts st st' evs k :
  run st acts = Some (st', evs) → no_book acts = true →
  slots st !! k = None → slots st' !! k = None.
Proof.
  revert st evs. induction acts as [|a acts IH]; intros st evs Hrun Hnb Hk;
    cbn [run] in Hrun.
  - by injection Hrun as <- _.
  - cbn in Hnb. apply andb_true_iff in Hnb as [Ha Hnb].
    apply negb_true_iff in Ha.
    destruct (step st a) as [[st1 evs1]|] eqn:E; [|discriminate].
    destruct (run st1 acts) as [[st2 evs2]|] eqn:E2; [|discriminate].
    injection Hrun as <- _. eapply IH; [exact E2 | exact Hnb |].
    eapply step_absent; eauto.
Qed.



(** The joiner's two transitions when its code is not in the table. *)
Lemma join_missing st c t :
  tasks st !! c = Some t → gpc t = GStart → slotkey t ≠ EmptyString →
  slots st !! slotkey t = None →
  run st [AJoin c; AClose c]
  = Some (upd (upd st c (set_gpc t GJoinMissing)) c (set_gpc t GDone),
          close_frame c CloseNoSuchSlot "no such slot").
Proof.
  intros Ht Hpc Hk Hs. cbn [run step]. unfold join.
  rewrite Ht. cbn [mbind option_bind]. rewrite Hpc.
  apply String.eqb_neq in Hk. rewrite Hk, Hs.
  unfold close. cbn [upd tasks]. rewrite lookup_insert_eq.
  cbn [mbind option_bind set_gpc gpc]. reflexivity.
Qed.

(** ** Joining *)

Lemma state_after_reachable acts :
  is_Some (run init acts) → reachable (state_after acts).
Proof.
  intros [[st evs] H]. exists acts, evs. unfold state_after. by rewrite H.
Qed.




(** ** Booking *)

Lemma band_candidates_lookup rnd pos b n i :
  i < n →
  band_candidates rnd pos (b, n) !! i = Some (Itoa (Intn rnd (pos + i) b)).
Proof.
  intros Hi. unfold band_candidates. cbn [fst snd].
  rewrite list_lookup_fmap, lookup_seq_lt by done. reflexivity.
Qed.

Lemma band_candidates_length rnd pos b n :
  length (band_candidates rnd pos (b, n)) = n.
Proof. unfold band_candidates. cbn [snd]. by rewrite length_fmap, length_seq. Qed.

Lemma four_bands_lookup rnd b1 n1 b2 n2 b3 n3 b4 n4 i :
  i < n1 + n2 + n3 + n4 →
  all_candidates rnd 0 [(b1, n1); (b2, n2); (b3, n3); (b4, n4)] !! i
  = Some (Itoa (Intn rnd i
            (if i <? n1 then b1
             else if i <? n1 + n2 then b2
             else if i <? n1 + n2 + n3 then b3
             else b4))).
Proof.
  intros Hi. cbn [all_candidates snd].
  destruct (Nat.ltb_spec i n1).
  { rewrite lookup_app_l by (rewrite band_candidates_length; lia).
    by rewrite band_candidates_lookup. }
  rewrite lookup_app_r; rewrite band_candidates_length; [|lia].
  destruct (Nat.ltb_spec i (n1 + n2)).
  { rewrite lookup_app_l by (rewrite band_candidates_length; lia).
    rewrite band_candidates_lookup by lia.
    replace (0 + n1 + (i - n1)) with i by lia. reflexivity. }
  rewrite lookup_app_r; rewrite band_candidates_length; [|lia].
  destruct (Nat.ltb_spec i (n1 + n2 + n3)).
  { rewrite lookup_app_l by (rewrite band_candidates_length; lia).
    rewrite band_candidates_lookup by lia.
    replace (0 + n1 + n2 + (i - n1 - n2)) with i by lia. reflexivity. }
  rewrite lookup_app_r; rewrite band_candidates_length; [|lia].
  rewrite lookup_app_l by (rewrite band_candidates_length; lia).
  rewrite band_candidates_lookup by lia.
  replace (0 + n1 + n2 + n3 + (i - n1 - n2 - n3)) with i by lia. reflexivity.
Qed.

Lemma candidates_lookup rnd i :
  i < 3 + 64 + 1024 + 1024 →
  candidates rnd !! i = Some (Itoa (Intn rnd i (band_bound i))).
Proof.
  exact (four_bands_lookup rnd 10 3 (2 ^ 8) 64 (2 ^ 16) 1024 (2 ^ 24) 1024 i).
Qed.

Lemma band_bound_range i : (0 < band_bound i ≤ 2 ^ 24)%Z.
Proof. unfold band_bound. repeat case_match; lia. Qed.

Lemma book_slots st c rnd st' evs :
  book st c rnd = Some (st', evs) →
  match freeslot (slots st) rnd with
  | (s, true) => slots st !! s = None ∧ slots st' = <[s := nchan st]> (slots st)
  | (_, false) => slots st' = slots st
  end.
Proof.
  intros H. unfold book in H. inv_step H.
  - split; [|reflexivity]. by apply freeslot_ok_free in E1 as [? _].
  - reflexivity.
Qed.

(** C2.  The allocator tries the codes of a fixed schedule of 3 + 64 + 1024
    + 1024 samples, the [i]-th drawn below 10, 2^8, 2^16 or 2^24 according
    to the band [i] falls in, and returns the first that is not a key of the
    table.  A code returned with success is not a key; FULL is returned
    exactly when every sample of the schedule is a key.  The booking
    transition inserts the code in the same locked block that chose it. *)
Theorem freeslot_bands (m : gmap string chan) (rnd : nat → Z) :
  freeslot m rnd = freeslot_spec m rnd ∧
  length (candidates rnd) = 3 + 64 + 1024 + 1024 ∧
  (∀ i, i < 3 + 64 + 1024 + 1024 →
        candidates rnd !! i = Some (Itoa (Intn rnd i (band_bound i))) ∧
        (0 ≤ Intn rnd i (band_bound i) < band_bound i)%Z) ∧
  (∀ s, freeslot m rnd = (s, true) → m !! s = None ∧ In s (candidates rnd)) ∧
  (snd (freeslot m rnd) = false ↔
     ∀ s, In s (candidates rnd) → is_Some (m !! s)) ∧
  (∀ st c st' evs, slots st = m → book st c rnd = Some (st', evs) →
     match freeslot m rnd with
     | (s, true) => m !! s = None ∧ slots st' = <[s := nchan st]> m
     | (_, false) => slots st' = m
     end).
Proof.
  split; [apply freeslot_refines|].
  split; [apply candidates_length|].
  split; [|split; [apply freeslot_ok_free | split; [apply freeslot_full_iff|]]].
  - intros i Hi. split; [by apply candidates_lookup|].
    unfold Intn. apply Z.mod_pos_bound. apply band_bound_range.
  - intros st c st' evs <- H. by apply book_slots in H.
Qed.

Lemma freeslot_bands_witness :
  slots (state_after [AAccept 0 EmptyString]) = ∅ ∧
  slots (state_after [AAccept 0 EmptyString; ABook 0 (λ _, 7%Z)]) = {[ "7"%string := 0 ]}.
Proof.
  split; [vm_compute; reflexivity|].
  destruct (freeslot_bands ∅ (λ _, 7%Z)) as (_ & _ & _ & _ & _ & H).
  specialize (H (state_after [AAccept 0 EmptyString]) 0
                (state_after [AAccept 0 EmptyString; ABook 0 (λ _, 7%Z)]) []).
  assert (E : freeslot ∅ (λ _, 7%Z) = ("7"%string, true))
    by (vm_compute; reflexivity).
  rewrite E in H.
  destruct H as [_ H]; [vm_compute; reflexivity | vm_compute; reflexivity |].
  rewrite H. vm_compute. reflexivity.
Defined.

(** ** Who is paired with whom *)

Lemma holds_insert st st' c t' c' ch :
  tasks st' = <[c := t']> (tasks st) →
  holds st' c' ch ↔ (c' = c ∧ sc t' = Some ch) ∨ (c' ≠ c ∧ holds st c' ch).
Proof.
  intros Hts. rewrite <- (holds_upd st c t' c' ch). unfold holds, upd.
  cbn [tasks]. by rewrite Hts.
Qed.

(** One task changes, keeping its channel and its remote connection. *)
Lemma PairInv_keep st st' c t t' :
  tasks st' = <[c := t']> (tasks st) →
  tasks st !! c = Some t → sc t' = sc t → rconn t' = rconn t →
  (gpc t' = GStart → gpc t = GStart) →
  PairInv st → PairInv st'.
Proof.
  intros Hts Ht Hsc Hr Hpc [I1 I2].
  assert (Hh : ∀ x ch, holds st x ch → holds st' x ch).
  { intros x ch H. apply (holds_insert st st' c t' x ch Hts).
    destruct (decide (x = c)) as [->|Hne]; [left|by right].
    split; [done|]. destruct H as (tx & Htx & Hx). congruence. }
  split.
  - intros x tx Hx Hgx. rewrite Hts in Hx.
    apply lookup_insert_Some in Hx as [[-> <-]|[_ Hx]]; [|eauto].
    rewrite Hsc. eauto.
  - intros x tx rc Hx Hrx. rewrite Hts in Hx.
    apply lookup_insert_Some in Hx as [[-> <-]|[_ Hx]].
    + rewrite Hr in Hrx. destruct (I2 _ _ _ Ht Hrx) as (Hne & ch & H1 & H2).
      split; [done|]. exists ch. eauto.
    + destruct (I2 _ _ _ Hx Hrx) as (Hne & ch & H1 & H2).
      split; [done|]. exists ch. eauto.
Qed.

(** A task at its first program point gets a channel. *)
Lemma PairInv_take st st' c t t' :
  tasks st' = <[c := t']> (tasks st) →
  tasks st !! c = Some t → gpc t = GStart → rconn t' = rconn t →
  gpc t' ≠ GStart →
  PairInv st → PairInv st'.
Proof.
  intros Hts Ht Hg Hr Hpc [I1 I2].
  assert (Hnone : ∀ ch, ¬ holds st c ch).
  { intros ch (tc & Htc & Hsc). assert (tc = t) as -> by congruence.
    rewrite (I1 _ _ Ht Hg) in Hsc. discriminate. }
  assert (Hh : ∀ x ch, holds st x ch → holds st' x ch).
  { intros x ch H. apply (holds_insert st st' c t' x ch Hts).
    right. split; [|done]. intros ->. by eapply Hnone. }
  split.
  - intros x tx Hx Hgx. rewrite Hts in Hx.
    apply lookup_insert_Some in Hx as [[-> <-]|[_ Hx]]; [done | eauto].
  - intros x tx rc Hx Hrx. rewrite Hts in Hx.
    apply lookup_insert_Some in Hx as [[-> <-]|[_ Hx]].
    + rewrite Hr in Hrx. destruct (I2 _ _ _ Ht Hrx) as (_ & ch & H1 & _).
      by apply Hnone in H1.
    + destruct (I2 _ _ _ Hx Hrx) as (Hne & ch & H1 & H2).
      split; [done|]. exists ch. eauto.
Qed.

Lemma PairInv_init : PairInv init.
Proof. split; cbn; intros *; by rewrite lookup_empty. Qed.

Lemma PairInv_upd st c t t' :
  tasks st !! c = Some t → sc t' = sc t → rconn t' = rconn t →
  (gpc t' = GStart → gpc t = GStart) →
  PairInv st → PairInv (upd st c t').
Proof. by apply PairInv_keep. Qed.

Lemma PairInv_step st a st' evs :
  PairInv st → step st a = Some (st', evs) → PairInv st'.
Proof.
  intros I H. destruct a; unfold_step H; inv_step H;
    try (eapply PairInv_upd; [eassumption | done | done | | exact I];
         cbn; congruence).
  - (* accept *)
    destruct I as [I1 I2]. split; cbn [upd tasks].
    + intros x tx [[-> <-]|[_ Hx]]%lookup_insert_Some; [done | eauto].
    + intros x tx rc [[-> <-]|[Hne Hx]]%lookup_insert_Some Hrx; [done|].
      destruct (I2 _ _ _ Hx Hrx) as (Hn & ch & H1 & H2).
      split; [done|]. exists ch.
      split; apply holds_upd; right; (split; [|done]).
      * done.
      * intros ->. destruct H2 as (t2 & Ht2 & _). congruence.
  - (* book *)
    eapply (PairInv_take st _ c t);
      [reflexivity | exact Et | exact E | reflexivity | discriminate | exact I].
  - (* write_slot *)
    eapply PairInv_upd; [eassumption | done | done | | exact I].
    cbn. intros Hx. by destruct ok.
  - (* join *)
    eapply (PairInv_take st _ c t);
      [reflexivity | exact Et | exact E | reflexivity | discriminate | exact I].
  - (* drop *)
    eapply (PairInv_keep st _ c t);
      [reflexivity | exact Et | reflexivity | reflexivity | | exact I].
    cbn. congruence.
  - (* handoff *)
    apply bool_decide_eq_true_1 in E as [Hne <-].
    assert (I' : PairInv (upd st s (set_gpc t g))).
    { eapply PairInv_upd; [eassumption | done | done | | exact I].
      cbn. intros ->. destruct (gpc t); discriminate. }
    destruct I' as [I1 I2]. split; cbn [upd tasks].
    + intros x tx [[-> <-]|[_ Hx]]%lookup_insert_Some Hgx; [|eauto].
      cbn in Hgx. subst g0. destruct (gpc t0); discriminate.
    + assert (Hh : ∀ x ch, holds (upd st s (set_gpc t g)) x ch →
                holds (upd (upd st s (set_gpc t g)) r (set_rconn t0 s g0)) x ch).
      { intros x ch H. apply holds_upd.
        destruct (decide (x = r)) as [->|Hx]; [left|by right].
        split; [done|]. destruct H as (tx & Htx & Hsc). cbn [upd tasks] in Htx.
        rewrite lookup_insert_ne in Htx by done. cbn. congruence. }
      intros x tx rc [[-> <-]|[Hx Htx]]%lookup_insert_Some Hrx.
      * cbn in Hrx. injection Hrx as <-. split; [done|]. exists c.
        split; apply Hh, holds_upd.
        -- right. split; [done|]. by exists t0.
        -- left. done.
      * destruct (I2 _ _ _ Htx Hrx) as (Hn & ch & H1 & H2).
        split; [done|]. exists ch. eauto.
  - (* forward *)
    eapply PairInv_upd; [eassumption | | | | exact I]; by destruct ok.
Qed.

Lemma reachable_PairInv st : reachable st → PairInv st.
Proof. apply reachable_invariant; [apply PairInv_init | apply PairInv_step]. Qed.

(** ** The read loop *)

Lemma TraceInv_init : TraceInv (tasks init) [].
Proof. intros c. cbn. by rewrite lookup_empty. Qed.

(** A transition that records nothing changes one task. *)
Lemma TraceInv_quiet ts evs c t t' :
  ts !! c = Some t →
  (∀ R D X, TaskTrace t R D X → TaskTrace t' R D X) →
  TraceInv ts evs → TraceInv (<[c := t']> ts) evs.
Proof.
  intros Ht Hstep I c'. specialize (I c').
  destruct (decide (c' = c)) as [->|Hne].
  - rewrite lookup_insert_eq. rewrite Ht in I. by apply Hstep.
  - by rewrite lookup_insert_ne.
Qed.

(** Calls of the goroutine do not count as reads or writes of a loop. *)
Lemma TraceInv_silent ts evs evs' :
  (∀ c, reads_of c evs' = [] ∧ delivered c evs' = [] ∧ dests c evs' = []) →
  TraceInv ts evs → TraceInv ts (evs ++ evs').
Proof.
  intros Hq I c. specialize (I c). destruct (Hq c) as (Q1 & Q2 & Q3).
  unfold reads_of, delivered, dests in *.
  by rewrite !omap_app, Q1, Q2, Q3, !app_nil_r.
Qed.

Lemma TraceInv_accept ts evs c key :
  ts !! c = None →
  TraceInv ts evs →
  TraceInv (<[c := mkTask key None None GStart HRead false]> ts) evs.
Proof.
  intros Hc I c'. specialize (I c').
  destruct (decide (c' = c)) as [->|Hne].
  - rewrite lookup_insert_eq. rewrite Hc in I. destruct I as (-> & -> & ->).
    split; cbn; [discriminate | by intros rc H%elem_of_nil | reflexivity].
  - by rewrite lookup_insert_ne.
Qed.

Lemma TraceInv_read ts evs c t res :
  ts !! c = Some t → hpc t = HRead →
  TraceInv ts evs →
  TraceInv (<[c := match res with
                   | Some f => set_hpc t (HGot f)
                   | None => handler_return t
                   end]> ts) (evs ++ [ERead c res]).
Proof.
  intros Ht Hh I c'. specialize (I c').
  unfold reads_of, delivered, dests in *. rewrite !omap_app.
  destruct (decide (c' = c)) as [->|Hne].
  - rewrite lookup_insert_eq. rewrite Ht in I. destruct I as [I1 I2 I3].
    rewrite Hh in I3. cbn [omap list_omap read_by delivered_by dest_by].
    rewrite !app_nil_r.
    destruct res as [f|]; split; cbn [rconn gpc hpc set_hpc handler_return cancel];
      try done.
    + destruct (decide (c = c)); [by rewrite I3 | done].
    + exists []. rewrite !app_nil_r. split; [exact I3 | cbn; lia].
  - rewrite lookup_insert_ne by done.
    cbn [omap list_omap read_by delivered_by dest_by].
    destruct res; [destruct (decide (c = c')); [congruence|]|]; by rewrite !app_nil_r.
Qed.

Lemma TraceInv_forward (ts : gmap conn Task) evs (c : conn) t (mt : Z)
    (p : list Byte.byte) (rc : conn) (ok : bool) :
  ts !! c = Some t → hpc t = HGot (mt, p) → rconn t = Some rc →
  TraceInv ts evs →
  TraceInv (<[c := if ok then set_hpc t HRead else handler_return t]> ts)
    (evs ++ [EForward c rc mt p ok]).
Proof.
  intros Ht Hh Hr I c'. specialize (I c').
  unfold reads_of, delivered, dests in *. rewrite !omap_app.
  destruct (decide (c' = c)) as [->|Hne].
  - rewrite lookup_insert_eq. rewrite Ht in I. destruct I as [I1 I2 I3].
    rewrite Hh in I3.
    assert (Hd : ∀ rc', rc' ∈ omap (dest_by c) evs ++ omap (dest_by c)
                   [EForward c rc mt p ok] → rconn t = Some rc').
    { cbn [omap list_omap dest_by]. destruct (decide (c = c)); [|done].
      intros rc' [H| ->%list_elem_of_singleton]%elem_of_app; eauto. }
    destruct ok; cbn [omap list_omap read_by delivered_by];
      (destruct (decide (c = c)); [|done]); rewrite ?app_nil_r;
      split; cbn [rconn gpc hpc set_hpc handler_return cancel].
    + exact I1.
    + exact Hd.
    + exact I3.
    + exact I1.
    + exact Hd.
    + exists [(mt, p)]. split; [exact I3 | cbn; lia].
  - rewrite lookup_insert_ne by done.
    cbn [omap list_omap read_by delivered_by dest_by].
    destruct (decide (c = c')); [congruence|]. destruct ok; by rewrite !app_nil_r.
Qed.

(** A task whose goroutine moves on keeps what its read loop has done. *)
Lemma TaskTrace_move t t' R D X :
  hpc t' = hpc t → rconn t' = rconn t →
  (gpc t = GJoinSend ∨ gpc t = GDone → gpc t' = GJoinSend ∨ gpc t' = GDone) →
  TaskTrace t R D X → TaskTrace t' R D X.
Proof.
  intros Hh Hr Hpc [I1 I2 I3]. split.
  - intros rc H. rewrite Hr in H. eauto.
  - intros rc H. rewrite Hr. eauto.
  - by rewrite Hh.
Qed.

Lemma TaskTrace_cancel t R D X :
  TaskTrace t R D X → TaskTrace (cancel t) R D X.
Proof. by apply TaskTrace_move. Qed.

Lemma close_frame_silent c0 code reason c :
  reads_of c (close_frame c0 code reason) = [] ∧
  delivered c (close_frame c0 code reason) = [] ∧
  dests c (close_frame c0 code reason) = [].
Proof. done. Qed.

Lemma TraceInv_step st a st' evs0 evs :
  TraceInv (tasks st) evs0 → step st a = Some (st', evs) →
  TraceInv (tasks st') (evs0 ++ evs).
Proof.
  intros I H. destruct a; unfold_step H; inv_step H;
    cbn [upd tasks]; rewrite ?app_nil_r;
    try (eapply TraceInv_quiet; [eassumption | | exact I];
         intros R D X; apply TaskTrace_move; cbn; try done;
         intros [Hx|Hx]; congruence).
  - (* accept *) by apply TraceInv_accept.
  - (* write_slot *)
    apply TraceInv_silent; [done|].
    eapply TraceInv_quiet; [eassumption | | exact I].
    intros R D X. apply TaskTrace_move; cbn; try done.
    intros [Hx|Hx]; congruence.
  - (* close, four times *)
    apply TraceInv_silent; [apply close_frame_silent|].
    eapply TraceInv_quiet; [eassumption | | exact I].
    intros R D X. apply TaskTrace_move; cbn; try done.
    intros [Hx|Hx]; congruence.
  - apply TraceInv_silent; [apply close_frame_silent|].
    eapply TraceInv_quiet; [eassumption | | exact I].
    intros R D X. apply TaskTrace_move; cbn; try done.
    intros [Hx|Hx]; congruence.
  - apply TraceInv_silent; [apply close_frame_silent|].
    eapply TraceInv_quiet; [eassumption | | exact I].
    intros R D X. apply TaskTrace_move; cbn; try done.
    intros [Hx|Hx]; congruence.
  - apply TraceInv_silent; [apply close_frame_silent|].
    eapply TraceInv_quiet; [eassumption | | exact I].
    intros R D X. apply TaskTrace_move; cbn; try done. by left.
  - (* handoff *)
    apply bool_decide_eq_true_1 in E as [Hne _].
    apply (TraceInv_quiet _ _ r t0); [by rewrite lookup_insert_ne | |].
    + intros R D X [I1 I2 I3]. split; cbn.
      * intros _ _. destruct (gpc t0); try discriminate;
          cbn in Et4; injection Et4 as <-; eauto.
      * intros rc Hin. apply I2 in Hin. pose proof (I1 _ Hin) as Hpc.
        destruct Hpc as [Hpc|Hpc]; rewrite Hpc in Et4; discriminate.
      * exact I3.
    + apply (TraceInv_quiet _ _ s t); [done | | exact I].
      intros R D X. apply TaskTrace_move; cbn; try done.
      intros Hx. destruct (gpc t); try discriminate;
        cbn in Et3; injection Et3 as <-; destruct Hx; (discriminate || eauto).
  - (* read *) by apply (TraceInv_read _ _ _ _ (Some f)).
  - by apply (TraceInv_read _ _ _ _ None).
  - (* forward *) by apply TraceInv_forward.
  - (* a frame in hand and no remote connection *)
    eapply TraceInv_quiet; [eassumption | | exact I].
    intros R D X [I1 I2 I3]. split; cbn.
    + intros rc Hrc. congruence.
    + intros rc Hin. apply I2 in Hin. congruence.
    + rewrite E in I3. exists [(z, l)]. split; [exact I3 | cbn; lia].
  - (* the library answers a close frame, and the read fails *)
    change (evs0 ++ [ECloseEcho c code; ERead c None])
      with (evs0 ++ [ECloseEcho c code] ++ [ERead c None]).
    rewrite app_assoc. apply (TraceInv_read _ _ _ _ None); [done | done |].
    by apply TraceInv_silent.
Qed.

Lemma TraceInv_run acts st st' evs0 evs :
  TraceInv (tasks st) evs0 → run st acts = Some (st', evs) →
  TraceInv (tasks st') (evs0 ++ evs).
Proof.
  revert st evs0 evs. induction acts as [|a acts IH]; intros st evs0 evs I Hrun;
    cbn [run] in Hrun.
  - injection Hrun as <- <-. by rewrite app_nil_r.
  - destruct (step st a) as [[st1 evs1]|] eqn:E; [|discriminate].
    destruct (run st1 acts) as [[st2 evs2]|] eqn:E2; [|discriminate].
    injection Hrun as <- <-. rewrite app_assoc.
    eapply IH; [|exact E2]. by eapply TraceInv_step.
Qed.

(** C3.  In every run of the server and for every connection [c], the
    frames the read loop of [c] has written with success are, in order and
    with type and payload unchanged, the frames it has read, up to the one
    frame it may have in hand (or, once it has returned, the last one read);
    all of them went to the connection received over the rendezvous
    channel, which is another connection holding the same channel.  The
    write of a frame in hand passes the type and the payload as read. *)
Theorem relay_forwards_in_order acts st evs (c : conn) :
  run init acts = Some (st, evs) →
  (∃ rest, reads_of c evs = delivered c evs ++ rest ∧ length rest ≤ 1) ∧
  (∀ t, tasks st !! c = Some t →
     (∀ rc, rc ∈ dests c evs → rconn t = Some rc) ∧
     (∀ rc, rconn t = Some rc → rc ≠ c ∧ ∃ ch, holds st c ch ∧ holds st rc ch) ∧
     match hpc t with
     | HRead => reads_of c evs = delivered c evs
     | HGot f => reads_of c evs = delivered c evs ++ [f]
     | HReturned => True
     end) ∧
  (∀ t mt p rc ok,
     tasks st !! c = Some t → hpc t = HGot (mt, p) → rconn t = Some rc →
     ∃ st', forward st c ok = Some (st', [EForward c rc mt p ok]) ∧
            delivered c (evs ++ [EForward c rc mt p true])
            = delivered c evs ++ [(mt, p)]).
Proof.
  intros Hrun.
  pose proof (TraceInv_run acts init st [] evs TraceInv_init Hrun c) as I.
  cbn [app] in I. split; [|split].
  - destruct (tasks st !! c) as [t|].
    + destruct I as [_ _ I3]. destruct (hpc t).
      * exists []. rewrite app_nil_r. split; [exact I3 | cbn; lia].
      * exists [f]. split; [exact I3 | cbn; lia].
      * exact I3.
    + destruct I as (-> & -> & _). exists []. split; [reflexivity | cbn; lia].
  - intros t Ht. rewrite Ht in I. destruct I as [_ I2 I3].
    split; [exact I2|]. split; [|by destruct (hpc t)].
    intros rc Hrc.
    assert (R : reachable st) by (by exists acts, evs).
    exact (pi_peer _ (reachable_PairInv _ R) c t rc Ht Hrc).
  - intros t mt p rc ok Ht Hh Hr. unfold forward.
    rewrite Ht. cbn [mbind option_bind]. rewrite Hh, Hr.
    eexists. split; [reflexivity|].
    unfold delivered. rewrite omap_app. cbn [omap list_omap delivered_by].
    by destruct (decide (c = c)).
Qed.

Lemma relay_forwards_in_order_witness :
  is_Some (run init happy_path) ∧
  ∃ evs, snd <$> run init happy_path = Some evs ∧
         reads_of 0 evs = [(BinaryMessage, list_byte_of_string "data")] ∧
         delivered 0 evs = reads_of 0 evs ∧
         dests 0 evs = [1].
Proof.
  destruct (run init happy_path) as [[st evs]|] eqn:E; [|vm_compute in E; discriminate].
  split; [eauto|]. exists evs. split; [reflexivity|].
  destruct (relay_forwards_in_order happy_path st evs 0 E) as [(rest & Hr & Hl) _].
  assert (Hevs : Some evs = snd <$> run init happy_path) by (by rewrite E).
  vm_compute in Hevs. injection Hevs as ->.
  vm_compute. repeat split; reflexivity.
Defined.

(** ** The deadline *)

Lemma upd_upd st c t1 t2 : upd (upd st c t1) c t2 = upd st c t2.
Proof. unfold upd. cbn. by rewrite insert_insert_eq. Qed.

Lemma upd_comm st c d t1 t2 :
  c ≠ d → upd (upd st c t1) d t2 = upd (upd st d t2) c t1.
Proof. intros Hne. unfold upd. cbn. by rewrite insert_insert_ne. Qed.

Lemma pump_ignores_deadline st c a :
  is_pump a = true →
  step (expire st c) a = (λ r, (expire (fst r) c, snd r)) <$> step st a.
Proof.
  intros Hp. unfold expire.
  destruct (tasks st !! c) as [t|] eqn:Ht.
  2: { destruct (step st a) as [[st' evs]|] eqn:E; cbn [fmap option_fmap option_map fst snd]; [|done].
       destruct a; try discriminate Hp; unfold_step E; inv_step E;
         cbn [upd tasks]; rewrite lookup_insert_ne by congruence; by rewrite Ht. }
  destruct a as [| | | | | | | | |d res|d ok|d code]; try discriminate Hp;
    cbn [step]; unfold read, forward, read_close; cbn [upd tasks].
  - destruct (decide (d = c)) as [->|Hne].
    + rewrite lookup_insert_eq, Ht. cbn [mbind option_bind cancel hpc].
      destruct (hpc t) eqn:Hh; [|done|done].
      destruct res; cbn [fmap option_fmap option_map fst snd upd tasks];
        rewrite lookup_insert_eq; do 2 f_equal; by rewrite !upd_upd.
    + rewrite lookup_insert_ne by done.
      destruct (tasks st !! d) as [td|] eqn:Hd; [|done].
      cbn [mbind option_bind]. destruct (hpc td); [|done|done].
      destruct res; cbn [fmap option_fmap option_map fst snd upd tasks];
        rewrite lookup_insert_ne by done; rewrite Ht;
        do 2 f_equal; by apply upd_comm.
  - destruct (decide (d = c)) as [->|Hne].
    + rewrite lookup_insert_eq, Ht. cbn [mbind option_bind cancel hpc rconn].
      destruct (hpc t) as [|[mt p]|] eqn:Hh; [done| |done].
      destruct (rconn t); [destruct ok|];
        cbn [fmap option_fmap option_map fst snd upd tasks];
        rewrite lookup_insert_eq; do 2 f_equal; by rewrite !upd_upd.
    + rewrite lookup_insert_ne by done.
      destruct (tasks st !! d) as [td|] eqn:Hd; [|done].
      cbn [mbind option_bind]. destruct (hpc td) as [|[mt p]|]; [done| |done].
      destruct (rconn td); [destruct ok|];
        cbn [fmap option_fmap option_map fst snd upd tasks];
        rewrite lookup_insert_ne by done; rewrite Ht;
        do 2 f_equal; by apply upd_comm.
  - destruct (decide (d = c)) as [->|Hne].
    + rewrite lookup_insert_eq, Ht. cbn [mbind option_bind cancel hpc].
      destruct (hpc t) eqn:Hh; [|done|done].
      cbn [fmap option_fmap option_map fst snd upd tasks].
      rewrite lookup_insert_eq. do 2 f_equal. by rewrite !upd_upd.
    + rewrite lookup_insert_ne by done.
      destruct (tasks st !! d) as [td|] eqn:Hd; [|done].
      cbn [mbind option_bind]. destruct (hpc td); [|done|done].
      cbn [fmap option_fmap option_map fst snd upd tasks].
      rewrite lookup_insert_ne by done. rewrite Ht.
      do 2 f_equal. by apply upd_comm.
Qed.

(** What a booker does when its select takes the [ctx.Done()] case. *)
Lemma booker_times_out st c t :
  tasks st !! c = Some t → gpc t = GBookSelect → ctx_done t = true →
  run st [ATimeout c; ADrop c; AClose c]
  = Some (mkState (delete (slotkey t) (slots st))
            (<[c := set_gpc t GDone]> (tasks st)) (nchan st),
          close_frame c CloseSlotTimedOut "timed out").
Proof.
  intros Ht Hpc Hd. run_task Ht. rewrite Hd, Hpc. run_task Ht. run_task Ht.
  unfold upd. cbn [tasks slots nchan app]. by rewrite !insert_insert_eq.
Qed.

Lemma run_deadline st c t :
  tasks st !! c = Some t → run st [ADeadline c] = Some (upd st c (cancel t), []).
Proof. intros Ht. cbn [run step]. unfold deadline. by rewrite Ht. Qed.

Lemma booker_deadline st c t :
  tasks st !! c = Some t → gpc t = GBookSelect →
  run st [ADeadline c; ATimeout c; ADrop c; AClose c]
  = Some (mkState (delete (slotkey t) (slots st))
            (<[c := set_gpc (cancel t) GDone]> (tasks st)) (nchan st),
          close_frame c CloseSlotTimedOut "timed out").
Proof.
  intros Ht Hpc. change ([ADeadline c; ATimeout c; ADrop c; AClose c])
    with ([ADeadline c] ++ [ATimeout c; ADrop c; AClose c]).
  rewrite run_app, (run_deadline _ _ _ Ht).
  rewrite (booker_times_out _ c (cancel t)); cbn [upd tasks];
    [|by rewrite lookup_insert_eq | done | done].
  cbn [slots nchan app]. by rewrite insert_insert_eq.
Qed.

(** What a joiner does when its select takes the [ctx.Done()] case: the
    close frame is written and the goroutine goes on to line 175. *)
Lemma joiner_times_out st c t :
  tasks st !! c = Some t → gpc t = GJoinSelect → ctx_done t = true →
  run st [ATimeout c; AClose c]
  = Some (upd st c (set_gpc t GJoinSend),
          close_frame c CloseSlotTimedOut "timed out").
Proof.
  intros Ht Hpc Hd. run_task Ht. rewrite Hd, Hpc. run_task Ht.
  by rewrite upd_upd.
Qed.

Lemma joiner_deadline st c t :
  tasks st !! c = Some t → gpc t = GJoinSelect →
  run st [ADeadline c; ATimeout c; AClose c]
  = Some (upd st c (set_gpc (cancel t) GJoinSend),
          close_frame c CloseSlotTimedOut "timed out").
Proof.
  intros Ht Hpc. change ([ADeadline c; ATimeout c; AClose c])
    with ([ADeadline c] ++ [ATimeout c; AClose c]).
  rewrite run_app, (run_deadline _ _ _ Ht).
  rewrite (joiner_times_out _ c (cancel t)); cbn [upd tasks];
    [|by rewrite lookup_insert_eq | done | done].
  cbn [app]. by rewrite upd_upd.
Qed.

(** C4, as stated, fails: the session of code 7 is paired, the deadlines of
    both connections fire, and afterwards each read loop still reads a frame
    and writes it to the other side, and neither has returned. *)
Lemma deadline_does_not_stop_pump :
  ctx_done <$> tasks (state_after deadline_fired) !! 0 = Some true ∧
  ctx_done <$> tasks (state_after deadline_fired) !! 1 = Some true ∧
  rconn <$> tasks (state_after deadline_fired) !! 0 = Some (Some 1) ∧
  rconn <$> tasks (state_after deadline_fired) !! 1 = Some (Some 0) ∧
  snd <$> run (state_after deadline_fired) late_frames
  = Some [ERead 0 (Some (BinaryMessage, list_byte_of_string "late"));
          EForward 0 1 BinaryMessage (list_byte_of_string "late") true;
          ERead 1 (Some (TextMessage, list_byte_of_string "later"));
          EForward 1 0 TextMessage (list_byte_of_string "later") true] ∧
  hpc <$> tasks (state_after (deadline_fired ++ late_frames)) !! 0 = Some HRead ∧
  hpc <$> tasks (state_after (deadline_fired ++ late_frames)) !! 1 = Some HRead.
Proof. vm_compute. repeat split; reflexivity. Qed.

Lemma deadline_expire st c t :
  tasks st !! c = Some t → deadline st c = Some (expire st c, []).
Proof. intros Ht. unfold deadline, expire. by rewrite Ht. Qed.

Lemma timeout_at_select st c t st' evs :
  tasks st !! c = Some t → timeout st c = Some (st', evs) →
  ctx_done t = true ∧ (gpc t = GBookSelect ∨ gpc t = GJoinSelect).
Proof.
  intros Ht H. unfold timeout in H. rewrite Ht in H. cbn [mbind option_bind] in H.
  destruct (ctx_done t); [|discriminate]. split; [done|].
  destruct (gpc t); try discriminate; eauto.
Qed.

(** A read loop with a remote connection keeps it, and returns only from
    a call that fails. *)
Lemma paired_loop_step st a st' evs c t rc :
  step st a = Some (st', evs) → tasks st !! c = Some t →
  rconn t = Some rc → gpc t = GJoinSend ∨ gpc t = GDone →
  ∃ t', tasks st' !! c = Some t' ∧ rconn t' = Some rc ∧
        (gpc t' = GJoinSend ∨ gpc t' = GDone) ∧
        (hpc t ≠ HReturned → hpc t' = HReturned → is_io_error c a = true).
Proof.
  intros H Ht Hrc Hpc.
  assert (Hcase : ∀ x, gpc t = x → x = GJoinSend ∨ x = GDone)
    by (intros x <-; exact Hpc).
  destruct a; unfold_step H; inv_step H; cbn [upd tasks];
    try (match goal with
         | Et : tasks st !! ?c0 = Some ?t0
           |- ∃ t', <[?c0 := _]> (tasks st) !! c = Some t' ∧ _ =>
             destruct (decide (c0 = c)) as [->|?];
             [ rewrite lookup_insert_eq; assert (t0 = t) as -> by congruence;
               first
                 [ by destruct (Hcase _ ltac:(eassumption))
                 | eexists; split; [reflexivity|];
                   cbn [is_io_error]; rewrite ?bool_decide_eq_true;
                   try (destruct ok); cbn; repeat split; try done; congruence ]
             | rewrite lookup_insert_ne by done; exists t;
               repeat split; try done; congruence ]
         end).
  - (* accept *)
    rewrite lookup_insert_ne by congruence. exists t.
    repeat split; try done; congruence.
  - (* handoff *)
    apply bool_decide_eq_true_1 in E as [Hne <-].
    destruct (decide (c = r)) as [->|Nr].
    + exfalso. assert (t1 = t) as -> by congruence.
      destruct Hpc as [Hpc|Hpc]; rewrite Hpc in Et4; discriminate.
    + rewrite lookup_insert_ne by done.
      destruct (decide (c = s)) as [->|Ns].
      * rewrite lookup_insert_eq. assert (t0 = t) as -> by congruence.
        eexists. split; [reflexivity|]. cbn. split; [done|].
        split; [|congruence].
        destruct Hpc as [Hpc|Hpc]; rewrite Hpc in Et3; [|discriminate].
        injection Et3 as <-. by right.
      * rewrite lookup_insert_ne by done. exists t.
        repeat split; try done; congruence.
  - (* forward *)
    destruct (decide (c0 = c)) as [->|?].
    + rewrite lookup_insert_eq. assert (t0 = t) as -> by congruence.
      eexists. split; [reflexivity|].
      destruct ok; cbn; repeat split; try done.
      intros _ _. by apply bool_decide_eq_true.
    + rewrite lookup_insert_ne by done. exists t.
      repeat split; try done; congruence.
Qed.

Lemma paired_loop_run acts st st' evs c t rc :
  run st acts = Some (st', evs) → tasks st !! c = Some t →
  rconn t = Some rc → gpc t = GJoinSend ∨ gpc t = GDone →
  ∃ t', tasks st' !! c = Some t' ∧ rconn t' = Some rc ∧
        (hpc t ≠ HReturned → hpc t' = HReturned →
         ∃ a, a ∈ acts ∧ is_io_error c a = true).
Proof.
  revert st evs t. induction acts as [|a acts IH]; intros st evs t Hrun Ht Hrc Hpc;
    cbn [run] in Hrun.
  - injection Hrun as <- <-. exists t. by repeat split.
  - destruct (step st a) as [[st1 evs1]|] eqn:E; [|discriminate].
    destruct (run st1 acts) as [[st2 evs2]|] eqn:E2; [|discriminate].
    injection Hrun as <- <-.
    destruct (paired_loop_step _ _ _ _ _ _ _ E Ht Hrc Hpc)
      as (t1 & Ht1 & Hrc1 & Hpc1 & Herr).
    destruct (IH _ _ _ E2 Ht1 Hrc1 Hpc1) as (t' & Ht' & Hrc' & Hlater).
    exists t'. split; [done|]. split; [done|]. intros Hn Hr.
    destruct (hpc t1) eqn:Hh1.
    + destruct Hlater as (a' & Hin & Ha'); [done | done |].
      exists a'. split; [by right | done].
    + destruct Hlater as (a' & Hin & Ha'); [done | done |].
      exists a'. split; [by right | done].
    + exists a. split; [by left | by apply Herr].
Qed.

(** C4, amended.  The deadline of a connection only marks its context as
    done.  The context is looked at by the two selects of the goroutine and
    nowhere else: a goroutine waiting in its select is then closed with 4001
    "timed out", while the transitions of the read loops are the same with
    the context done as without, with the same calls on the connections.
    A read loop that has a remote connection keeps it, and in every run it
    returns only after a read or a write of its own has failed: the deadline
    does not end a paired session. *)
Theorem deadline_bounds_rendezvous_only st c t :
  tasks st !! c = Some t →
  deadline st c = Some (expire st c, []) ∧
  (∀ a, is_pump a = true →
        step (expire st c) a = (λ r, (expire (fst r) c, snd r)) <$> step st a) ∧
  (∀ st' evs, timeout st c = Some (st', evs) →
        ctx_done t = true ∧ (gpc t = GBookSelect ∨ gpc t = GJoinSelect)) ∧
  (gpc t = GBookSelect →
     snd <$> run st [ADeadline c; ATimeout c; ADrop c; AClose c]
     = Some (close_frame c CloseSlotTimedOut "timed out")) ∧
  (gpc t = GJoinSelect →
     snd <$> run st [ADeadline c; ATimeout c; AClose c]
     = Some (close_frame c CloseSlotTimedOut "timed out")) ∧
  (∀ rc acts st' evs,
     reachable st → rconn t = Some rc → hpc t ≠ HReturned →
     run st acts = Some (st', evs) →
     ∃ t', tasks st' !! c = Some t' ∧ rconn t' = Some rc ∧
           (hpc t' = HReturned → ∃ a, a ∈ acts ∧ is_io_error c a = true)).
Proof.
  intros Ht. split; [by eapply deadline_expire|].
  split; [intros a Ha; by apply pump_ignores_deadline|].
  split; [intros st' evs H; by eapply timeout_at_select|].
  split; [intros Hpc | split; [intros Hpc|]].
  - by rewrite (booker_deadline _ _ _ Ht Hpc).
  - by rewrite (joiner_deadline _ _ _ Ht Hpc).
  - intros rc acts st' evs (acts0 & evs0 & Hr) Hrc Hh Hrun.
    pose proof (TraceInv_run _ _ _ _ _ TraceInv_init Hr c) as I.
    rewrite Ht in I. destruct I as [I1 _ _].
    destruct (paired_loop_run _ _ _ _ _ _ _ Hrun Ht Hrc (I1 _ Hrc))
      as (t' & Ht' & Hrc' & Hlater).
    exists t'. split; [done|]. split; [done|]. by apply Hlater.
Qed.

Lemma deadline_bounds_rendezvous_only_witness :
  is_Some (tasks (state_after paired_session) !! 0) ∧
  snd <$> step (expire (state_after paired_session) 0)
            (ARead 0 (Some (TextMessage, [])))
  = snd <$> step (state_after paired_session) (ARead 0 (Some (TextMessage, []))).
Proof.
  destruct (tasks (state_after paired_session) !! 0) as [t|] eqn:Ht;
    [|vm_compute in Ht; discriminate].
  split; [eauto|].
  destruct (deadline_bounds_rendezvous_only _ 0 t Ht) as (_ & H & _).
  rewrite (H (ARead 0 (Some (TextMessage, []))) eq_refl).
  by destruct (step (state_after paired_session) (ARead 0 (Some (TextMessage, [])))).
Defined.

(** ** Timeouts and failed writes *)

(** The goroutine of a joiner leaves line 175 only by completing its send
    on the channel. *)
Lemma join_send_step st a st' evs c t t' :
  step st a = Some (st', evs) →
  tasks st !! c = Some t → gpc t = GJoinSend → tasks st' !! c = Some t' →
  gpc t' = GJoinSend ∨ (gpc t' = GDone ∧ ∃ r, a = AHandoff c r).
Proof.
  intros H Ht Hpc Ht'.
  destruct a; unfold_step H; inv_step H; cbn [upd tasks] in Ht';
    try (apply lookup_insert_Some in Ht' as [[-> <-]|[_ Ht']];
         [ first [ exfalso; congruence
                 | left; cbn; congruence
                 | left; destruct ok; cbn; congruence ]
         | left; congruence ]).
  (* handoff *)
  apply bool_decide_eq_true_1 in E as [Hne _].
  apply lookup_insert_Some in Ht' as [[-> <-]|[Hr Ht']].
  - exfalso. assert (t1 = t) as -> by congruence. by rewrite Hpc in Et4.
  - apply lookup_insert_Some in Ht' as [[-> <-]|[_ Ht']].
    + right. assert (t0 = t) as -> by congruence.
      rewrite Hpc in Et3. injection Et3 as <-. split; [done | eauto].
    + left. congruence.
Qed.

(** C5 at its failing input.  A joiner waits in its select, its deadline
    fires and the select takes that case: the close frame 4001 "timed out"
    is written and the connection closed, but the goroutine does not
    return.  It stands at the send of line 175, and every later transition
    leaves it there unless it is the completion of that send. *)
Theorem joiner_timeout_falls_through st c t :
  tasks st !! c = Some t → gpc t = GJoinSelect →
  run st [ADeadline c; ATimeout c; AClose c]
  = Some (upd st c (set_gpc (cancel t) GJoinSend),
          [EWriteClose c 4001 "timed out"; EConnClose c]) ∧
  gpc (set_gpc (cancel t) GJoinSend) ≠ GDone ∧
  (∀ st1 a st2 evs t1 t2,
     tasks st1 !! c = Some t1 → gpc t1 = GJoinSend →
     step st1 a = Some (st2, evs) → tasks st2 !! c = Some t2 →
     gpc t2 = GJoinSend ∨ (gpc t2 = GDone ∧ ∃ r, a = AHandoff c r)).
Proof.
  intros Ht Hpc. split; [exact (joiner_deadline _ _ _ Ht Hpc)|].
  split; [done|].
  intros st1 a st2 evs t1 t2 Ht1 Hpc1 Hstep Ht2.
  by eapply join_send_step.
Qed.

(** The booker of code 7 is gone; a joiner takes the code, times out, and
    its goroutine is left at line 175, whose send the booker is not there
    to take.  The booker's own timeout path does return. *)
Lemma joiner_timeout_falls_through_witness :
  gpc <$> tasks (state_after joiner_waiting) !! 1 = Some GJoinSelect ∧
  snd <$> run (state_after joiner_waiting) [ADeadline 1; ATimeout 1; AClose 1]
  = Some [EWriteClose 1 4001 "timed out"; EConnClose 1] ∧
  gpc <$> tasks (state_after joiner_timed_out) !! 1 = Some GJoinSend ∧
  handoff (state_after joiner_timed_out) 1 0 = None ∧
  gpc <$> tasks (state_after booker_timed_out) !! 0 = Some GDone.
Proof.
  split; [vm_compute; reflexivity|].
  split; [|vm_compute; repeat split; reflexivity].
  destruct (joiner_timeout_falls_through (state_after joiner_waiting) 1
              (mkTask "7" None (Some 0) GJoinSelect HRead false)) as [H _].
  - vm_compute. reflexivity.
  - reflexivity.
  - by rewrite H.
Defined.

(** C6 at its failing input.  When the write of the code to the booker
    fails the goroutine returns and the table is what it was: the code is
    still a key, and a later join naming it finds it and goes on to wait for
    a booker that is gone. *)
Theorem failed_write_leaves_slot st c t ch :
  tasks st !! c = Some t → gpc t = GBookWrite →
  slots st !! slotkey t = Some ch →
  write_slot st c false
  = Some (upd st c (set_gpc t GDone),
          [EWriteSlot c TextMessage (list_byte_of_string (slotkey t)) false]) ∧
  slots (upd st c (set_gpc t GDone)) !! slotkey t = Some ch ∧
  (∀ j tj, tasks (upd st c (set_gpc t GDone)) !! j = Some tj →
     gpc tj = GStart → slotkey tj = slotkey t → slotkey t ≠ EmptyString →
     ∃ st', join (upd st c (set_gpc t GDone)) j = Some (st', []) ∧
            gpc <$> tasks st' !! j = Some GJoinSelect).
Proof.
  intros Ht Hpc Hs. split; [|split; [exact Hs|]].
  - unfold write_slot. rewrite Ht. cbn [mbind option_bind]. by rewrite Hpc.
  - intros j tj Htj Hpcj Hk Hne. unfold join. rewrite Htj.
    cbn [mbind option_bind]. rewrite Hpcj, Hk.
    apply String.eqb_neq in Hne. rewrite Hne. cbn [upd slots]. rewrite Hs.
    eexists. split; [reflexivity|]. cbn [tasks]. by rewrite lookup_insert_eq.
Qed.

Lemma failed_write_leaves_slot_witness :
  snd <$> run init abandoned_7
  = Some [EWriteSlot 0 TextMessage (list_byte_of_string "7") false] ∧
  gpc <$> tasks (state_after abandoned_7) !! 0 = Some GDone ∧
  slots (state_after abandoned_7) !! "7"%string = Some 0 ∧
  gpc <$> tasks (state_after joiner_waiting) !! 1 = Some GJoinSelect.
Proof.
  destruct (failed_write_leaves_slot
              (state_after [AAccept 0 EmptyString; ABook 0 (λ _, 7%Z)]) 0
              (mkTask "7" None (Some 0) GBookWrite HRead false) 0)
    as (Hw & Hs & _).
  - vm_compute. reflexivity.
  - reflexivity.
  - vm_compute. reflexivity.
  - vm_compute. repeat split; reflexivity.
Defined.

Lemma canonical_nonempty s : canonical_code s = true → s ≠ EmptyString.
Proof. by intros H ->. Qed.

(** A goroutine that has returned stays so, and writes no close frame. *)
Lemma done_step st a st' evs c t :
  step st a = Some (st', evs) → tasks st !! c = Some t → gpc t = GDone →
  (∃ t', tasks st' !! c = Some t' ∧ gpc t' = GDone) ∧
  ∀ code reason, EWriteClose c code reason ∉ evs.
Proof.
  intros H Ht Hpc.
  assert (Hnot : ∀ (d : conn) code reason code' reason',
            d ≠ c → EWriteClose c code reason ∉ close_frame d code' reason').
  { intros d code reason code' reason' Hd Hin. unfold close_frame in Hin.
    apply elem_of_cons in Hin as [Hin|Hin]; [congruence|].
    apply list_elem_of_singleton in Hin. discriminate. }
  assert (Hkeep : ∀ d (td td' : Task), tasks st !! d = Some td →
            (d = c → gpc td' = GDone) →
            ∃ t', <[d := td']> (tasks st) !! c = Some t' ∧ gpc t' = GDone).
  { intros d td td' Hd Hg. destruct (decide (d = c)) as [->|Hne].
    - rewrite lookup_insert_eq. eexists. split; [done | by apply Hg].
    - rewrite lookup_insert_ne by done. eauto. }
  destruct a; unfold_step H; inv_step H; cbn [upd tasks];
    try (split;
         [ eapply Hkeep; [eassumption|]; intros ->;
           first [ exfalso; congruence | cbn; congruence ]
         | intros code' reason' Hin;
           first
             [ by apply elem_of_nil in Hin
             | apply list_elem_of_singleton in Hin; discriminate Hin
             | eapply Hnot; [|exact Hin]; congruence
             | apply elem_of_cons in Hin as [Hin|Hin]; [discriminate Hin|];
               apply list_elem_of_singleton in Hin; discriminate Hin ] ]).
  - (* accept *)
    split; [|intros code' reason' Hin; by apply elem_of_nil in Hin].
    rewrite lookup_insert_ne by congruence. eauto.
  - (* handoff *)
    apply bool_decide_eq_true_1 in E as [Hne _].
    split; [|intros code' reason' Hin; by apply elem_of_nil in Hin].
    destruct (decide (r = c)) as [->|Hr].
    + exfalso. assert (t1 = t) as -> by congruence. by rewrite Hpc in Et4.
    + rewrite lookup_insert_ne by done.
      eapply Hkeep; [eassumption|]. intros ->.
      exfalso. assert (t0 = t) as -> by congruence. by rewrite Hpc in Et3.
  - (* forward *)
    split.
    + eapply Hkeep; [eassumption|]. intros ->. destruct ok; cbn; congruence.
    + intros code' reason' Hin.
      apply list_elem_of_singleton in Hin. discriminate Hin.
Qed.

Lemma done_run acts st st' evs c t :
  run st acts = Some (st', evs) → tasks st !! c = Some t → gpc t = GDone →
  (∃ t', tasks st' !! c = Some t' ∧ gpc t' = GDone) ∧
  ∀ code reason, EWriteClose c code reason ∉ evs.
Proof.
  revert st evs t. induction acts as [|a acts IH]; intros st evs t Hrun Ht Hpc;
    cbn [run] in Hrun.
  - injection Hrun as <- <-. split; [eauto|].
    intros code reason Hin. by apply elem_of_nil in Hin.
  - destruct (step st a) as [[st1 evs1]|] eqn:E; [|discriminate].
    destruct (run st1 acts) as [[st2 evs2]|] eqn:E2; [|discriminate].
    injection Hrun as <- <-.
    destruct (done_step _ _ _ _ _ _ E Ht Hpc) as [(t1 & Ht1 & Hpc1) Hn1].
    destruct (IH _ _ _ E2 Ht1 Hpc1) as [Hex Hn2].
    split; [exact Hex|]. intros code reason Hin.
    apply elem_of_app in Hin as [Hin|Hin]; [by eapply Hn1 | by eapply Hn2].
Qed.

(** C7 at its failing input.  The write of the code to the booker fails
    (lines 126-129) and the goroutine returns; nobody joins, and the
    deadline fires.  The firing marks the context done and that is all:
    the goroutine is not at its select, so the [ctx.Done()] case with its
    delete and its close 4001 cannot be taken, and in no later run is a
    close frame written to the booker by [relay].  The code is in the table
    after the deadline as before, and a join naming it finds it and waits
    in its select where the claim has it closed with 4000. *)
Theorem failed_booking_outlives_deadline st c t ch :
  reachable st → tasks st !! c = Some t → gpc t = GBookWrite →
  slots st !! slotkey t = Some ch →
  ∃ st',
    run st [AWriteSlot c false; ADeadline c]
    = Some (st', [EWriteSlot c TextMessage
                    (list_byte_of_string (slotkey t)) false]) ∧
    tasks st' !! c = Some (cancel (set_gpc t GDone)) ∧
    slots st' !! slotkey t = Some ch ∧
    timeout st' c = None ∧ drop st' c = None ∧ close st' c = None ∧
    (∀ acts st2 evs,
       run st' acts = Some (st2, evs) →
       gpc <$> tasks st2 !! c = Some GDone ∧
       ∀ code reason, EWriteClose c code reason ∉ evs) ∧
    (∀ j tj,
       tasks st' !! j = Some tj → gpc tj = GStart → slotkey tj = slotkey t →
       ∃ st2, run st' [AJoin j] = Some (st2, []) ∧
              gpc <$> tasks st2 !! j = Some GJoinSelect ∧
              close st2 j = None).
Proof.
  intros Hreach Ht Hpc Hs.
  assert (Hkey : slotkey t ≠ EmptyString).
  { apply canonical_nonempty.
    apply (ki_booked _ (reachable_KeyInv _ Hreach) c t Ht). by rewrite Hpc. }
  set (st' := upd st c (cancel (set_gpc t GDone))).
  assert (Ht' : tasks st' !! c = Some (cancel (set_gpc t GDone)))
    by (unfold st'; cbn [upd tasks]; by rewrite lookup_insert_eq).
  exists st'. split; [|split; [exact Ht'|split; [exact Hs|]]].
  - run_task Ht. rewrite Hpc. run_task Ht. unfold st'. by rewrite upd_upd.
  - split; [|split; [|split; [|split]]].
    + unfold timeout. by rewrite Ht'.
    + unfold drop. by rewrite Ht'.
    + unfold close. by rewrite Ht'.
    + intros acts st2 evs Hrun.
      destruct (done_run _ _ _ _ _ _ Hrun Ht' eq_refl) as [(t2 & Ht2 & Hpc2) Hn].
      split; [by rewrite Ht2; cbn; rewrite Hpc2 | exact Hn].
    + intros j tj Htj Hpcj Hk. apply String.eqb_neq in Hkey.
      eexists. split.
      * cbn [run step]. unfold join. rewrite Htj. cbn [mbind option_bind].
        rewrite Hpcj, Hk, Hkey. cbn [st' upd slots]. rewrite Hs. reflexivity.
      * cbn [tasks]. rewrite lookup_insert_eq. split; [done|].
        unfold close. cbn [tasks]. by rewrite lookup_insert_eq.
Qed.

Lemma failed_booking_outlives_deadline_witness :
  reachable (state_after [AAccept 0 EmptyString; ABook 0 (λ _, 7%Z)]) ∧
  ∃ st', run init abandoned_expired
         = Some (st', [EWriteSlot 0 TextMessage (list_byte_of_string "7") false]) ∧
         slots st' !! "7"%string = Some 0 ∧
         gpc <$> tasks st' !! 0 = Some GDone ∧
         timeout st' 0 = None.
Proof.
  assert (R : reachable (state_after [AAccept 0 EmptyString; ABook 0 (λ _, 7%Z)]))
    by (apply state_after_reachable; vm_compute; eauto).
  split; [exact R|].
  destruct (failed_booking_outlives_deadline
              (state_after [AAccept 0 EmptyString; ABook 0 (λ _, 7%Z)]) 0
              (mkTask "7" None (Some 0) GBookWrite HRead false) 0 R)
    as (st' & Hrun & Ht' & Hs & Ht & _).
  - vm_compute. reflexivity.
  - reflexivity.
  - vm_compute. reflexivity.
  - exists st'.
    split; [|split; [exact Hs | split; [exact (f_equal (fmap gpc) Ht') | exact Ht]]].
    change abandoned_expired
      with ([AAccept 0 EmptyString; ABook 0 (λ _, 7%Z)]
              ++ [AWriteSlot 0 false; ADeadline 0]).
    rewrite run_app.
    assert (E : run init [AAccept 0 EmptyString; ABook 0 (λ _, 7%Z)]
                = Some (state_after [AAccept 0 EmptyString; ABook 0 (λ _, 7%Z)], []))
      by (vm_compute; reflexivity).
    rewrite E, Hrun. reflexivity.
Defined.

(** X14.  A booker waiting in its select whose deadline fires deletes its
    code from the table, then writes the close frame 4001 "timed out" and
    closes the connection, and returns.  The code is then absent, stays
    absent as long as no booking is made, and a join naming it is closed
    with 4000. *)
Theorem booker_timeout_frees_slot st c t :
  reachable st → tasks st !! c = Some t → gpc t = GBookSelect →
  ∃ st',
    run st [ADeadline c; ATimeout c; ADrop c; AClose c]
    = Some (st', [EWriteClose c 4001 "timed out"; EConnClose c]) ∧
    (fst <$> run st [ADeadline c; ATimeout c; ADrop c])
    = Some (mkState (delete (slotkey t) (slots st))
              (<[c := set_gpc (cancel t) GBookTimedOut]> (tasks st)) (nchan st)) ∧
    slots st' = delete (slotkey t) (slots st) ∧
    gpc <$> tasks st' !! c = Some GDone ∧
    ∀ acts st2 evs,
      run st' acts = Some (st2, evs) → no_book acts = true →
      slots st2 !! slotkey t = None ∧
      ∀ j tj, tasks st2 !! j = Some tj → gpc tj = GStart →
        slotkey tj = slotkey t →
        snd <$> run st2 [AJoin j; AClose j]
        = Some [EWriteClose j 4000 "no such slot"; EConnClose j].
Proof.
  intros Hreach Ht Hpc.
  assert (Hkey : slotkey t ≠ EmptyString).
  { apply canonical_nonempty.
    apply (ki_booked _ (reachable_KeyInv _ Hreach) c t Ht). by rewrite Hpc. }
  eexists. split; [exact (booker_deadline _ _ _ Ht Hpc)|].
  split; [|split; [reflexivity | split]].
  - change ([ADeadline c; ATimeout c; ADrop c])
      with ([ADeadline c] ++ [ATimeout c; ADrop c]).
    rewrite run_app, (run_deadline _ _ _ Ht).
    run_task Ht. rewrite Hpc. run_task Ht.
    cbn [fmap option_fmap option_map fst]. by rewrite !insert_insert_eq.
  - cbn [tasks]. by rewrite lookup_insert_eq.
  - intros acts st2 evs Hrun Hnb.
    assert (Habs : slots st2 !! slotkey t = None).
    { eapply run_absent; [exact Hrun | exact Hnb |].
      cbn [slots]. apply lookup_delete_eq. }
    split; [exact Habs|].
    intros j tj Htj Hpcj Hk.
    rewrite (join_missing _ _ _ Htj Hpcj); [done | by rewrite Hk | by rewrite Hk].
Qed.

Lemma booker_timeout_frees_slot_witness :
  reachable (state_after booked_7) ∧
  slots (state_after booked_7) !! "7"%string = Some 0 ∧
  ∃ st', run (state_after booked_7) [ADeadline 0; ATimeout 0; ADrop 0; AClose 0]
         = Some (st', [EWriteClose 0 4001 "timed out"; EConnClose 0]) ∧
         slots st' !! "7"%string = None.
Proof.
  assert (R : reachable (state_after booked_7))
    by (apply state_after_reachable; vm_compute; eauto).
  split; [exact R|]. split; [vm_compute; reflexivity|].
  destruct (booker_timeout_frees_slot (state_after booked_7) 0
              (mkTask "7" None (Some 0) GBookSelect HRead false) R)
    as (st' & Hrun & _ & Hs & _ & Hafter).
  - vm_compute. reflexivity.
  - reflexivity.
  - exists st'. split; [exact Hrun|].
    exact (proj1 (Hafter [] st' [] eq_refl eq_refl)).
Defined.

(** ** Close codes *)










(** ** A frame before pairing *)

(** A read loop that has returned stays so and makes no further call. *)
Lemma returned_step st a st' evs c t :
  step st a = Some (st', evs) →
  tasks st !! c = Some t → hpc t = HReturned →
  (∃ t', tasks st' !! c = Some t' ∧ hpc t' = HReturned) ∧
  reads_of c evs = [] ∧ dests c evs = [].
Proof.
  intros H Ht Hh.
  assert (Hkeep : ∀ d (td td' : Task), tasks st !! d = Some td → hpc td' = hpc td →
            ∃ t', <[d := td']> (tasks st) !! c = Some t' ∧ hpc t' = HReturned).
  { intros d td td' Hd Hhd. destruct (decide (d = c)) as [->|Hne].
    - rewrite lookup_insert_eq. eexists. split; [done|]. congruence.
    - rewrite lookup_insert_ne by done. eauto. }
  destruct a; unfold_step H; inv_step H; cbn [upd tasks];
    try (split; [by eapply Hkeep | done]).
  - (* accept *)
    split; [|done]. rewrite lookup_insert_ne by congruence. eauto.
  - (* handoff *)
    apply bool_decide_eq_true_1 in E as [Hne _]. split; [|done].
    destruct (decide (r = c)) as [->|Hr].
    + rewrite lookup_insert_eq. eexists. split; [done|]. cbn. congruence.
    + rewrite lookup_insert_ne by done. by eapply Hkeep.
  - (* read *)
    assert (c0 ≠ c) by congruence.
    split; [rewrite lookup_insert_ne by done; eauto|].
    cbn. by destruct (decide (c0 = c)).
  - assert (c0 ≠ c) by congruence.
    split; [rewrite lookup_insert_ne by done; eauto|]. done.
  - (* forward *)
    assert (c0 ≠ c) by congruence.
    split; [rewrite lookup_insert_ne by done; eauto|].
    cbn. by destruct (decide (c0 = c)).
  - assert (c0 ≠ c) by congruence.
    split; [rewrite lookup_insert_ne by done; eauto|]. done.
  - (* read, with a close frame answered *)
    assert (c0 ≠ c) by congruence.
    split; [rewrite lookup_insert_ne by done; eauto|]. done.
Qed.

Lemma returned_run acts st st' evs c t :
  run st acts = Some (st', evs) →
  tasks st !! c = Some t → hpc t = HReturned →
  (∃ t', tasks st' !! c = Some t' ∧ hpc t' = HReturned) ∧
  reads_of c evs = [] ∧ dests c evs = [].
Proof.
  revert st evs t. induction acts as [|a acts IH]; intros st evs t Hrun Ht Hh;
    cbn [run] in Hrun.
  - injection Hrun as <- <-. eauto.
  - destruct (step st a) as [[st1 evs1]|] eqn:E; [|discriminate].
    destruct (run st1 acts) as [[st2 evs2]|] eqn:E2; [|discriminate].
    injection Hrun as <- <-.
    destruct (returned_step _ _ _ _ _ _ E Ht Hh) as ((t1 & Ht1 & Hh1) & R1 & D1).
    destruct (IH _ _ _ E2 Ht1 Hh1) as (Hst2 & R2 & D2).
    split; [exact Hst2|]. unfold reads_of, dests in *.
    by rewrite !omap_app, R1, R2, D1, D2.
Qed.

(** C9, as stated, fails: the booker of code 7 sends a frame while no one
    has joined; its read loop returns, and the server then writes the close
    frame 4001 "timed out" on that connection. *)
Lemma early_frame_is_closed_with_4001 :
  rconn <$> tasks (state_after early_frame) !! 0 = Some None ∧
  hpc <$> tasks (state_after early_frame) !! 0
  = Some (HGot (TextMessage, list_byte_of_string "hello")) ∧
  snd <$> run (state_after early_frame)
            [AForward 0 true; ATimeout 0; ADrop 0; AClose 0]
  = Some [EWriteClose 0 4001 "timed out"; EConnClose 0] ∧
  snd <$> run init early_frame_handled
  = Some [EWriteSlot 0 TextMessage (list_byte_of_string "7") true;
          ERead 0 (Some (TextMessage, list_byte_of_string "hello"));
          EWriteClose 0 4001 "timed out"; EConnClose 0].
Proof. vm_compute. repeat split; reflexivity. Qed.

(** C9, amended.  When the read loop finds [rconn] nil with a frame in hand
    it returns: nothing is written, neither the frame nor a close frame, and
    the deferred cancel marks the context done.  The loop makes no call on
    any connection afterwards, so the frame is never forwarded.  A goroutine
    that waits for a joiner in its select then finds its context done, and
    on taking that case deletes the code and closes the connection with 4001
    "timed out". *)
Theorem early_frame_cancels st c t f ok :
  tasks st !! c = Some t → hpc t = HGot f → rconn t = None →
  forward st c ok = Some (upd st c (handler_return t), []) ∧
  ctx_done (handler_return t) = true ∧
  (∀ acts st' evs,
     run (upd st c (handler_return t)) acts = Some (st', evs) →
     hpc <$> tasks st' !! c = Some HReturned ∧
     reads_of c evs = [] ∧ dests c evs = []) ∧
  (gpc t = GBookSelect →
     run (upd st c (handler_return t)) [ATimeout c; ADrop c; AClose c]
     = Some (mkState (delete (slotkey t) (slots st))
               (<[c := set_gpc (handler_return t) GDone]> (tasks st)) (nchan st),
             [EWriteClose c 4001 "timed out"; EConnClose c])).
Proof.
  intros Ht Hh Hr. split; [|split; [done | split]].
  - unfold forward. rewrite Ht. cbn [mbind option_bind]. rewrite Hh.
    destruct f as [mt p]. by rewrite Hr.
  - intros acts st' evs Hrun.
    destruct (returned_run acts _ _ _ c (handler_return t) Hrun)
      as ((t' & Ht' & Hh') & R & D); [cbn; by rewrite lookup_insert_eq | done |].
    rewrite Ht'. cbn. by rewrite Hh'.
  - intros Hpc.
    rewrite (booker_times_out _ c (handler_return t)); cbn [upd tasks];
      [|by rewrite lookup_insert_eq | done | done].
    cbn [slots nchan]. by rewrite insert_insert_eq.
Qed.

Lemma early_frame_cancels_witness :
  rconn <$> tasks (state_after early_frame) !! 0 = Some None ∧
  snd <$> forward (state_after early_frame) 0 true = Some [].
Proof.
  split; [vm_compute; reflexivity|].
  destruct (early_frame_cancels (state_after early_frame) 0
              (mkTask "7" None (Some 0) GBookSelect
                 (HGot (TextMessage, list_byte_of_string "hello")) false)
              (TextMessage, list_byte_of_string "hello") true) as [H _].
  - vm_compute. reflexivity.
  - reflexivity.
  - reflexivity.
  - by rewrite H.
Defined.

(** ** Codes that cannot be keys *)

(** C10.  In every reachable state each key of the table is what [Itoa]
    prints for a number in [0, 2^24): digits only, no sign, no leading
    zero.  A join whose code is not of that form finds nothing and is
    closed with 4000, whatever is booked; "007" is such a code, and so is
    every code with a character that is not a digit. *)
Theorem keys_are_canonical st :
  reachable st →
  (∀ k ch, slots st !! k = Some ch →
     canonical_code k = true ∧ ∃ v, (0 ≤ v < 2 ^ 24)%Z ∧ k = Itoa v) ∧
  (∀ c t,
     tasks st !! c = Some t → gpc t = GStart → slotkey t ≠ EmptyString →
     (canonical_code (slotkey t) = false ∨
      ¬ ∃ v, (0 ≤ v < 2 ^ 24)%Z ∧ slotkey t = Itoa v) →
     slots st !! slotkey t = None ∧
     snd <$> run st [AJoin c; AClose c]
     = Some [EWriteClose c 4000 "no such slot"; EConnClose c]) ∧
  canonical_code "007" = false ∧
  (∀ s, all_digits s = false → canonical_code s = false).
Proof.
  intros Hreach. pose proof (reachable_KeyInv _ Hreach) as [I1 _].
  split; [|split; [|split]].
  - intros k ch Hk. pose proof (I1 k ch Hk) as Hc.
    split; [exact Hc | by apply StrconvFacts.canonical_iff].
  - intros c t Ht Hpc Hk Hbad.
    assert (Hs : slots st !! slotkey t = None).
    { destruct (slots st !! slotkey t) as [ch|] eqn:E; [|done].
      apply I1 in E. destruct Hbad as [Hbad|Hbad]; [congruence|].
      exfalso. apply Hbad. by apply StrconvFacts.canonical_iff. }
    split; [exact Hs|]. by rewrite (join_missing _ _ _ Ht Hpc Hk Hs).
  - reflexivity.
  - intros s Hs. unfold canonical_code. by rewrite Hs.
Qed.

Lemma keys_are_canonical_witness :
  reachable (state_after asks_007) ∧
  slots (state_after asks_007) !! "7"%string = Some 0 ∧
  snd <$> run (state_after asks_007) [AJoin 1; AClose 1]
  = Some [EWriteClose 1 4000 "no such slot"; EConnClose 1].
Proof.
  assert (R : reachable (state_after asks_007))
    by (apply state_after_reachable; vm_compute; eauto).
  split; [exact R|]. split; [vm_compute; reflexivity|].
  destruct (keys_are_canonical _ R) as (_ & H & _).
  apply (H 1 (mkTask "007" None None GStart HRead false)).
  - vm_compute. reflexivity.
  - reflexivity.
  - discriminate.
  - left. reflexivity.
Defined.

(** * Further properties *)

(** ** The slot code in the request path *)

Lemma drop_str_append (p s : string) :
  drop_str (String.length p) (String.append p s) = s.
Proof. induction p as [|a p IH]; [reflexivity | exact IH]. Qed.

Lemma length_append_str (p s : string) :
  String.length (String.append p s) = String.length p + String.length s.
Proof.
  induction p as [|a p IH]; [reflexivity|].
  change (S (String.length (String.append p s))
          = S (String.length p + String.length s)). by rewrite IH.
Qed.

Lemma drop_str_length n s :
  n ≤ String.length s → String.length (drop_str n s) + n = String.length s.
Proof.
  revert s. induction n as [|n IH]; intros s Hn; cbn [drop_str]; [lia|].
  destruct s as [|a r]; cbn [String.length] in *; [lia|].
  specialize (IH r). lia.
Qed.

(** X1.  The slot code is what follows the first three bytes of the path.
    For a path under "/s/" the slice is in range and gives back the rest,
    so that the path is "/s/" followed by the code, and the code is empty
    exactly for the path "/s/"; the slice is out of range exactly for paths
    shorter than three bytes. *)
Theorem path_slotkey_suffix (path : string) :
  (∀ key, path = String.append "/s/" key → path_slotkey path = Some key) ∧
  (∀ key, path_slotkey path = Some key →
     String.length path = 3 + String.length key ∧
     (String.prefix "/s/" path = true → path = String.append "/s/" key) ∧
     (String.prefix "/s/" path = true →
        (key = EmptyString ↔ path = "/s/"%string))) ∧
  (path_slotkey path = None ↔ String.length path < 3).
Proof.
  unfold path_slotkey, slice_from. split; [|split].
  - intros key ->. rewrite length_append_str.
    rewrite (drop_str_append "/s/" key). reflexivity.
  - intros key H. change (String.length "/s/") with 3 in H.
    destruct (Nat.leb_spec 3 (String.length path)) as [Hle|]; [|discriminate].
    assert (Hk : drop_str 3 path = key) by congruence. subst key. clear H.
    pose proof (drop_str_length 3 path Hle) as Hlen.
    split; [lia|].
    assert (Hpre : String.prefix "/s/" path = true →
              path = String.append "/s/" (drop_str 3 path)).
    { intros Hp. destruct path as [|a [|b [|c r]]];
        cbn [String.length] in Hle; try lia.
      cbn [String.prefix] in Hp.
      destruct (ascii_dec "/" a) as [<-|]; [|discriminate Hp].
      destruct (ascii_dec "s" b) as [<-|]; [|discriminate Hp].
      destruct (ascii_dec "/" c) as [<-|]; [|discriminate Hp]. reflexivity. }
    split; [exact Hpre|]. intros Hp. split.
    + intros E. etrans; [exact (Hpre Hp)|]. by rewrite E.
    + intros E. rewrite E. reflexivity.
  - change (String.length "/s/") with 3.
    destruct (Nat.leb_spec 3 (String.length path)); split;
      first [discriminate | lia | reflexivity].
Qed.

Lemma path_slotkey_suffix_witness :
  path_slotkey "/s/12345" = Some "12345"%string ∧
  path_slotkey "/s/" = Some EmptyString ∧
  path_slotkey "/s" = None.
Proof.
  destruct (path_slotkey_suffix "/s/12345") as (H1 & _).
  destruct (path_slotkey_suffix "/s/") as (H2 & _).
  destruct (path_slotkey_suffix "/s") as (_ & _ & H3).
  split; [by apply H1|]. split; [by apply H2|]. apply H3. cbn. lia.
Defined.

(** ** How short a code is *)

Lemma find_first {A} (f : A → bool) (l : list A) (x : A) :
  find f l = Some x ↔
  ∃ i, l !! i = Some x ∧ f x = true ∧
       ∀ j y, j < i → l !! j = Some y → f y = false.
Proof.
  induction l as [|a l IH]; cbn [find].
  - split; [discriminate | by intros (i & H & _)].
  - destruct (f a) eqn:Ha; split.
    + intros [= <-]. exists 0. split; [done|]. split; [done|]. intros j y Hj. lia.
    + intros (i & Hi & Hx & Hlt). destruct i as [|i]; [by injection Hi as ->|].
      specialize (Hlt 0 a ltac:(lia) eq_refl). congruence.
    + intros H. apply IH in H as (i & Hi & Hx & Hlt). exists (S i).
      split; [done|]. split; [done|]. intros [|j] y Hj Hy.
      * by injection Hy as <-.
      * apply (Hlt j); [lia | done].
    + intros (i & Hi & Hx & Hlt). destruct i as [|i].
      * injection Hi as ->. congruence.
      * apply IH. exists i. split; [done|]. split; [done|].
        intros j y Hj Hy. apply (Hlt (S j)); [lia | done].
Qed.

Lemma freeslot_first m rnd s :
  freeslot m rnd = (s, true) ↔ ∃ i, first_free_at m rnd i s.
Proof.
  rewrite freeslot_refines. unfold freeslot_spec, first_free_at.
  destruct (find (is_free m) (candidates rnd)) as [s'|] eqn:E; split.
  - intros [= <-]. apply find_first in E as (i & Hi & Hf & Hlt).
    exists i. split; [done|]. unfold is_free in Hf.
    apply bool_decide_eq_true_1 in Hf. split; [done|].
    intros j y Hj Hy. specialize (Hlt j y Hj Hy). unfold is_free in Hlt.
    apply bool_decide_eq_false_1 in Hlt. by destruct (m !! y).
  - intros (i & Hi & Hf & Hlt).
    assert (E' : find (is_free m) (candidates rnd) = Some s).
    { apply find_first. exists i. split; [done|]. unfold is_free.
      split; [by apply bool_decide_eq_true_2|].
      intros j y Hj Hy. apply bool_decide_eq_false_2.
      destruct (Hlt j y Hj Hy) as [ch Hch]. congruence. }
    congruence.
  - discriminate.
  - intros (i & Hi & Hf & _). exfalso.
    assert (Hin : In s (candidates rnd)).
    { apply list_elem_of_In, list_elem_of_lookup. eauto. }
    pose proof (find_none _ _ E s Hin) as Hn. unfold is_free in Hn.
    by apply bool_decide_eq_false_1 in Hn.
Qed.

Lemma format_dec_length fuel n u :
  (0 ≤ u < 10 ^ Z.of_nat n)%Z → 1 ≤ n ≤ fuel →
  1 ≤ String.length (format_dec fuel u EmptyString) ≤ n.
Proof.
  revert n u. induction fuel as [|f IH]; intros n u Hu Hn; [lia|].
  rewrite StrconvFacts.format_dec_S.
  destruct (u / 10 =? 0)%Z eqn:E; [cbn; lia|].
  apply Z.eqb_neq in E. rewrite length_append_str. cbn [String.length].
  destruct n as [|[|n]]; [lia| |].
  - exfalso. apply E. apply Z.div_small. change (10 ^ Z.of_nat 1)%Z with 10%Z in Hu. lia.
  - assert (Hu' : (0 ≤ u / 10 < 10 ^ Z.of_nat (S n))%Z).
    { rewrite (Nat2Z.inj_succ (S n)), Z.pow_succ_r in Hu by lia.
      split; [apply Z.div_pos; lia | apply Z.div_lt_upper_bound; lia]. }
    specialize (IH (S n) (u / 10)%Z Hu' ltac:(lia)). lia.
Qed.

Lemma band_digits_bound i : (band_bound i ≤ 10 ^ Z.of_nat (band_digits i))%Z.
Proof. unfold band_bound, band_digits. repeat case_match; cbn; lia. Qed.

Lemma band_digits_range i : 1 ≤ band_digits i ≤ 8.
Proof. unfold band_digits. repeat case_match; lia. Qed.

Lemma candidates_lookup_lt rnd i s :
  candidates rnd !! i = Some s → i < 3 + 64 + 1024 + 1024.
Proof.
  intros H. apply lookup_lt_Some in H. by rewrite candidates_length in H.
Qed.

Lemma candidate_length rnd i s :
  candidates rnd !! i = Some s →
  1 ≤ String.length s ≤ band_digits i ∧ all_digits s = true.
Proof.
  intros H. pose proof (candidates_lookup_lt _ _ _ H) as Hi.
  rewrite (candidates_lookup rnd i Hi) in H. injection H as <-. clear Hi.
  pose proof (band_bound_range i) as Hb.
  pose proof (band_digits_bound i) as Hd.
  pose proof (band_digits_range i) as Hr.
  assert (Hv : (0 ≤ Intn rnd i (band_bound i) < band_bound i)%Z)
    by (apply Z.mod_pos_bound; lia).
  rewrite StrconvFacts.Itoa_nonneg by lia. split.
  - apply format_dec_length; lia.
  - apply StrconvFacts.format_dec_digits. lia.
Qed.

(** X2.  A code returned by the allocator is the first free sample of the
    schedule, has digits only, and is as short as its band allows: one digit
    when it is among the first 3 samples, at most 3 among the next 64, at
    most 5 among the next 1024, and never more than 8. *)
Theorem freeslot_code_length m rnd s :
  freeslot m rnd = (s, true) →
  ∃ i, first_free_at m rnd i s ∧
       1 ≤ String.length s ≤ band_digits i ∧ band_digits i ≤ 8 ∧
       all_digits s = true.
Proof.
  intros H. apply freeslot_first in H as (i & Hi). exists i.
  split; [exact Hi|]. destruct Hi as (Hi & _).
  destruct (candidate_length _ _ _ Hi) as [Hl Hd].
  pose proof (band_digits_range i). repeat split; (lia || done).
Qed.

Lemma freeslot_code_length_witness :
  freeslot ∅ (λ _, 7%Z) = ("7"%string, true) ∧
  ∃ i, first_free_at ∅ (λ _, 7%Z) i "7" ∧ String.length "7" ≤ band_digits i.
Proof.
  assert (E : freeslot ∅ (λ _, 7%Z) = ("7"%string, true)) by (vm_compute; reflexivity).
  split; [exact E|].
  destruct (freeslot_code_length _ _ _ E) as (i & Hi & Hl & _).
  exists i. split; [exact Hi | lia].
Defined.

(** X3.  Fewer keys never make the allocation worse: if, with the same
    draws, the allocator finds a code in a table, it finds one in every
    table whose keys are among that table's keys, and no later in the
    schedule. *)
Theorem freeslot_fewer_keys (m m' : gmap string chan) rnd s' :
  (∀ k, is_Some (m !! k) → is_Some (m' !! k)) →
  freeslot m' rnd = (s', true) →
  ∃ s i j, freeslot m rnd = (s, true) ∧
           first_free_at m rnd i s ∧ first_free_at m' rnd j s' ∧ i ≤ j.
Proof.
  intros Hsub H'. apply freeslot_first in H' as (j & Hj).
  destruct Hj as (Hj & Hfree & Hbefore).
  assert (Hfree_m : m !! s' = None).
  { destruct (m !! s') as [ch|] eqn:E; [|done].
    destruct (Hsub s' ltac:(eauto)) as [ch' Hch']. congruence. }
  destruct (freeslot m rnd) as [s ok] eqn:E. destruct ok.
  - pose proof E as E'. apply freeslot_first in E' as (i & Hi).
    exists s, i, j. split; [done|]. split; [done|].
    split; [by repeat split|].
    destruct Hi as (Hi & Hfi & Hbi).
    destruct (Nat.le_gt_cases i j) as [|Hlt]; [done|].
    destruct (Hbi j s' Hlt Hj) as [ch Hch]. congruence.
  - exfalso.
    assert (Hf : snd (freeslot m rnd) = false) by (by rewrite E).
    assert (Hin : In s' (candidates rnd))
      by (apply list_elem_of_In, list_elem_of_lookup; eauto).
    destruct (proj1 (freeslot_full_iff m rnd) Hf s' Hin) as [ch Hch].
    congruence.
Qed.

Lemma freeslot_fewer_keys_witness :
  freeslot {[ "3"%string := 0 ]} (λ i, Z.of_nat (3 + i)) = ("4"%string, true) ∧
  ∃ s, freeslot ∅ (λ i, Z.of_nat (3 + i)) = (s, true).
Proof.
  assert (E : freeslot {[ "3"%string := 0 ]} (λ i, Z.of_nat (3 + i))
              = ("4"%string, true)) by (vm_compute; reflexivity).
  split; [exact E|].
  destruct (freeslot_fewer_keys ∅ {[ "3"%string := 0 ]} _ _
              ltac:(intros k [x Hx]; by rewrite lookup_empty in Hx) E)
    as (s & i & j & Hs & _).
  eauto.
Defined.

(** X4.  The allocation fails only when a one-digit code is booked: every
    failure leaves a one-digit key in the table, and in a table without
    one-digit keys the first sample, a single digit, is returned. *)
Theorem freeslot_full_needs_digit (m : gmap string chan) rnd :
  (snd (freeslot m rnd) = false →
     ∃ d, (0 ≤ d < 10)%Z ∧ is_Some (m !! Itoa d)) ∧
  ((∀ d, (0 ≤ d < 10)%Z → m !! Itoa d = None) →
     freeslot m rnd = (Itoa (Intn rnd 0 10), true) ∧
     String.length (Itoa (Intn rnd 0 10)) = 1).
Proof.
  assert (H0 : candidates rnd !! 0 = Some (Itoa (Intn rnd 0 10))) by reflexivity.
  assert (Hr : (0 ≤ Intn rnd 0 10 < 10)%Z) by (apply Z.mod_pos_bound; lia).
  split.
  - intros Hf. exists (Intn rnd 0 10). split; [exact Hr|].
    apply (proj1 (freeslot_full_iff m rnd) Hf).
    apply list_elem_of_In, list_elem_of_lookup. eauto.
  - intros Hnone. split.
    + apply freeslot_first. exists 0. split; [exact H0|].
      split; [by apply Hnone|]. intros j s' Hj. lia.
    + destruct (candidate_length _ _ _ H0) as [Hl _].
      change (band_digits 0) with 1 in Hl. lia.
Qed.

Lemma freeslot_full_needs_digit_witness :
  snd (freeslot {[ "0"%string := 0 ]} (λ _, 0%Z)) = false ∧
  ∃ d, (0 ≤ d < 10)%Z ∧ is_Some (({[ "0"%string := 0 ]} : gmap string chan) !! Itoa d).
Proof.
  assert (E : snd (freeslot {[ "0"%string := 0 ]} (λ _, 0%Z)) = false)
    by (vm_compute; reflexivity).
  split; [exact E|].
  exact (proj1 (freeslot_full_needs_digit _ _) E).
Defined.

(** ** The exchange of connections *)

(** X5.  A booker and a joiner waiting in their selects on the same channel
    exchange their connections in two steps, the booker's send first: the
    joiner cannot send before it has received.  Afterwards each has the
    other as its remote connection and both goroutines have returned; the
    table and all other connections are untouched, and nothing is written
    to either peer. *)
Theorem rendezvous_exchange st (b j : conn) tb tj ch :
  tasks st !! b = Some tb → tasks st !! j = Some tj → b ≠ j →
  gpc tb = GBookSelect → gpc tj = GJoinSelect →
  sc tb = Some ch → sc tj = Some ch →
  handoff st j b = None ∧
  ∃ st',
    run st [AHandoff b j; AHandoff j b] = Some (st', []) ∧
    slots st' = slots st ∧
    tasks st' !! b = Some (set_rconn tb j GDone) ∧
    tasks st' !! j = Some (set_rconn tj b GDone) ∧
    ∀ x, x ≠ b → x ≠ j → tasks st' !! x = tasks st !! x.
Proof.
  intros Hb Hj Hne Hpb Hpj Hsb Hsj. split.
  - unfold handoff. rewrite Hj, Hb. cbn [mbind option_bind].
    rewrite Hsj, Hsb. cbn [mbind option_bind]. by rewrite Hpj.
  - eexists. split.
    + cbn [run step]. unfold handoff at 1. rewrite Hb, Hj.
      cbn [mbind option_bind]. rewrite Hsb, Hsj. cbn [mbind option_bind].
      rewrite Hpb, Hpj. cbn [mbind option_bind after_send after_recv].
      rewrite bool_decide_eq_true_2 by done.
      unfold handoff. cbn [upd tasks].
      rewrite lookup_insert_eq. cbn [mbind option_bind].
      rewrite lookup_insert_ne by done. rewrite lookup_insert_eq.
      cbn [mbind option_bind set_rconn set_gpc sc gpc after_send after_recv].
      rewrite Hsb, Hsj. cbn [mbind option_bind].
      rewrite bool_decide_eq_true_2 by done. reflexivity.
    + cbn [slots upd tasks]. split; [reflexivity|]. split; [|split].
      * by rewrite lookup_insert_eq.
      * rewrite lookup_insert_ne by done. by rewrite lookup_insert_eq.
      * intros x Hxb Hxj. by rewrite !lookup_insert_ne by done.
Qed.

Lemma rendezvous_exchange_witness :
  rconn <$> tasks (state_after paired_session) !! 0 = Some (Some 1) ∧
  rconn <$> tasks (state_after paired_session) !! 1 = Some (Some 0) ∧
  ∃ st', run (state_after (joiner_arrives ++ [AJoin 1])) [AHandoff 0 1; AHandoff 1 0]
         = Some (st', []) ∧
         rconn <$> tasks st' !! 0 = Some (Some 1).
Proof.
  split; [vm_compute; reflexivity|]. split; [vm_compute; reflexivity|].
  destruct (rendezvous_exchange (state_after (joiner_arrives ++ [AJoin 1])) 0 1
              (mkTask "7" None (Some 0) GBookSelect HRead false)
              (mkTask "7" None (Some 0) GJoinSelect HRead false) 0)
    as (_ & st' & Hrun & _ & Hb & _); try (vm_compute; reflexivity); [lia|].
  exists st'. split; [exact Hrun|]. exact (f_equal (fmap rconn) Hb).
Defined.

(** ** When the read loop returns *)

Lemma returned_cancelled_step st a st' evs :
  (∀ c t, tasks st !! c = Some t → hpc t = HReturned → ctx_done t = true) →
  step st a = Some (st', evs) →
  ∀ c t, tasks st' !! c = Some t → hpc t = HReturned → ctx_done t = true.
Proof.
  intros I H c' t' Ht' Hh.
  destruct a; unfold_step H; inv_step H; cbn [upd tasks] in Ht';
    repeat match type of Ht' with
    | <[_ := _]> _ !! _ = Some _ =>
        apply lookup_insert_Some in Ht' as [[-> <-]|[? Ht']]
    end;
    try exact (I _ _ Ht' Hh);
    try (destruct ok); cbn in Hh |- *;
    first [ reflexivity | discriminate
          | match goal with
            | Hx : tasks st !! _ = Some ?t |- ctx_done ?t = true =>
                exact (I _ _ Hx Hh)
            end ].
Qed.

(** X6.  In every reachable state a connection whose read loop has
    returned has its context done, the effect of the deferred cancel.  So
    when the client of a booker waiting for a joiner goes away and the read
    fails, the goroutine's select finds the context done and, taking that
    case, deletes the code and closes with 4001 "timed out". *)
Theorem read_error_releases_slot st c t :
  reachable st → tasks st !! c = Some t →
  (hpc t = HReturned → ctx_done t = true) ∧
  (gpc t = GBookSelect → hpc t = HRead →
   ∃ st', run st [ARead c None; ATimeout c; ADrop c; AClose c]
          = Some (st', [ERead c None; EWriteClose c 4001 "timed out";
                        EConnClose c]) ∧
          slots st' = delete (slotkey t) (slots st) ∧
          (gpc <$> tasks st' !! c) = Some GDone).
Proof.
  intros Hreach Ht. split.
  - revert c t Ht. revert st Hreach. apply (reachable_invariant
      (λ st, ∀ c t, tasks st !! c = Some t → hpc t = HReturned →
                    ctx_done t = true)).
    + intros c t Ht. cbn in Ht. by rewrite lookup_empty in Ht.
    + intros st a st' evs I H. by eapply returned_cancelled_step.
  - intros Hpc Hh. eexists. split; [|split].
    + change ([ARead c None; ATimeout c; ADrop c; AClose c])
        with ([ARead c None] ++ [ATimeout c; ADrop c; AClose c]).
      assert (Hread : run st [ARead c None]
                = Some (upd st c (handler_return t), [ERead c None])).
      { cbn [run step]. unfold read. rewrite Ht. cbn [mbind option_bind].
        by rewrite Hh. }
      rewrite run_app, Hread.
      rewrite (booker_times_out _ c (handler_return t)); cbn [upd tasks];
        [|by rewrite lookup_insert_eq | done | done].
      cbn [app slots nchan]. rewrite insert_insert_eq. reflexivity.
    + reflexivity.
    + cbn [tasks]. by rewrite lookup_insert_eq.
Qed.

Lemma read_error_releases_slot_witness :
  reachable (state_after booked_7) ∧
  ∃ st', run (state_after booked_7) [ARead 0 None; ATimeout 0; ADrop 0; AClose 0]
         = Some (st', [ERead 0 None; EWriteClose 0 4001 "timed out"; EConnClose 0]) ∧
         slots st' = delete "7"%string (slots (state_after booked_7)).
Proof.
  assert (R : reachable (state_after booked_7))
    by (apply state_after_reachable; vm_compute; eauto).
  split; [exact R|].
  destruct (read_error_releases_slot (state_after booked_7) 0
              (mkTask "7" None (Some 0) GBookSelect HRead false) R)
    as (_ & H); [vm_compute; reflexivity|].
  destruct (H eq_refl eq_refl) as (st' & Hrun & Hs & _).
  exists st'. split; [exact Hrun | exact Hs].
Defined.

(** ** The delete of a timed-out booker *)

(** X7.  The delete of lines 133-135 goes by the code, not by the channel:
    when the booker's code was taken by a joiner and has been booked again,
    the entry deleted is the later booking's.  That booker keeps waiting,
    its channel is in the table no more, and a join naming the code is
    closed with 4000. *)
Theorem drop_is_by_code st c t ch' :
  tasks st !! c = Some t → gpc t = GBookDrop →
  slots st !! slotkey t = Some ch' → sc t ≠ Some ch' →
  ∃ st',
    drop st c = Some (st', []) ∧
    slots st' !! slotkey t = None ∧
    (∀ b tb, b ≠ c → tasks st !! b = Some tb → sc tb = Some ch' →
       tasks st' !! b = Some tb) ∧
    (∀ j tj, tasks st' !! j = Some tj → gpc tj = GStart →
       slotkey tj = slotkey t → slotkey t ≠ EmptyString →
       snd <$> run st' [AJoin j; AClose j]
       = Some [EWriteClose j 4000 "no such slot"; EConnClose j]).
Proof.
  intros Ht Hpc Hs Hne. eexists. split; [|split; [|split]].
  - unfold drop. rewrite Ht. cbn [mbind option_bind]. by rewrite Hpc.
  - cbn [slots]. apply lookup_delete_eq.
  - intros b tb Hb Htb _. cbn [tasks]. by rewrite lookup_insert_ne.
  - intros j tj Htj Hpj Hk Hnonempty.
    rewrite (join_missing _ _ _ Htj Hpj); [done | by rewrite Hk |].
    rewrite Hk. cbn [slots]. apply lookup_delete_eq.
Qed.

Lemma drop_is_by_code_witness :
  reachable (state_after rebooked_7) ∧
  slots (state_after rebooked_7) !! "7"%string = Some 1 ∧
  (gpc <$> tasks (state_after rebooked_7) !! 2) = Some GBookSelect ∧
  ∃ st', drop (state_after rebooked_7) 0 = Some (st', []) ∧
         slots st' !! "7"%string = None ∧
         (gpc <$> tasks st' !! 2) = Some GBookSelect.
Proof.
  assert (R : reachable (state_after rebooked_7))
    by (apply state_after_reachable; vm_compute; eauto).
  split; [exact R|]. split; [vm_compute; reflexivity|].
  split; [vm_compute; reflexivity|].
  destruct (drop_is_by_code (state_after rebooked_7) 0
              (mkTask "7" None (Some 0) GBookDrop HRead true) 1)
    as (st' & Hd & Hs & Hb & _); try (vm_compute; reflexivity); [discriminate|].
  exists st'. split; [exact Hd|]. split; [exact Hs|].
  assert (H2 : tasks st' !! 2 = Some (mkTask "7" None (Some 1) GBookSelect HRead false)).
  { apply Hb; [lia | vm_compute; reflexivity | reflexivity]. }
  exact (f_equal (fmap gpc) H2).
Defined.

(** ** Bookers and joiners of a channel *)

Lemma RoleInv_init : RoleInv init.
Proof. split; cbn; intros *; by rewrite lookup_empty. Qed.

(** One task changes and keeps its channel and its remote connection; it
    does not enter or leave the program points the invariant speaks of,
    and the table does not grow. *)
Lemma RoleInv_keep st st' c t t' :
  tasks st' = <[c := t']> (tasks st) →
  (∀ ch, listed st' ch → listed st ch) →
  tasks st !! c = Some t → sc t' = sc t → rconn t' = rconn t →
  (joining (gpc t') = true → joining (gpc t) = true) →
  (gpc t' = GBookRecv → gpc t = GBookRecv) →
  (gpc t = GJoinSend → gpc t' = GJoinSend) →
  (gpc t = GBookRecv → gpc t' = GBookRecv) →
  (gpc t = GDone → gpc t' = GDone) →
  RoleInv st → RoleInv st'.
Proof.
  intros Hts Hl Ht Hsc Hr Hj Hrecv Hsend Hrecv' Hdone [I1 I2 I3 I4 I5].
  assert (Hlook : ∀ x tx, tasks st' !! x = Some tx →
            (x = c ∧ tx = t') ∨ (x ≠ c ∧ tasks st !! x = Some tx)).
  { intros x tx Hx. rewrite Hts in Hx.
    apply lookup_insert_Some in Hx as [[-> <-]|[? Hx]]; eauto. }
  split.
  - intros x tx rc [[-> ->]|[_ Hx]]%Hlook Hrc; [|eauto].
    rewrite Hr in Hrc. destruct (I1 _ _ _ Ht Hrc) as [H|H]; eauto.
  - intros x tx ch [[-> ->]|[_ Hx]]%Hlook Hjx Hscx Hlisted%Hl.
    + rewrite Hsc in Hscx. by eapply (I2 c t ch); eauto.
    + by eapply (I2 x tx ch).
  - intros x1 t1 x2 t2 ch [[-> ->]|[N1 H1]]%Hlook [[-> ->]|[N2 H2]]%Hlook
      J1 J2 S1 S2; try done.
    + rewrite Hsc in S1. eapply (I3 c t x2 t2 ch); eauto.
    + rewrite Hsc in S2. eapply (I3 x1 t1 c t ch); eauto.
    + eapply (I3 x1 t1 x2 t2 ch); eauto.
  - intros r tr ch Hr0 Hpr Hsr.
    assert (∃ tr0, tasks st !! r = Some tr0 ∧ gpc tr0 = GBookRecv ∧ sc tr0 = Some ch)
      as (tr0 & Htr0 & Hp0 & Hs0).
    { apply Hlook in Hr0 as [[-> ->]|[_ Hr0]]; [|eauto].
      exists t. split; [done|]. split; [eauto | congruence]. }
    destruct (I4 _ _ _ Htr0 Hp0 Hs0) as (x & tx & Hx & Hpx & Hsx & Hrx).
    destruct (decide (x = c)) as [->|Hne].
    + assert (tx = t) as -> by congruence.
      exists c, t'. rewrite Hts, lookup_insert_eq.
      split; [done|]. split; [eauto|]. split; congruence.
    + exists x, tx. rewrite Hts, lookup_insert_ne by done. eauto.
  - intros d td x tx Hd Hrd Hx.
    assert (∃ td0, tasks st !! d = Some td0 ∧ rconn td0 = Some x) as (td0 & Htd0 & Hrd0).
    { apply Hlook in Hd as [[-> ->]|[_ Hd]]; [|eauto].
      exists t. split; [done | congruence]. }
    apply Hlook in Hx as [[-> ->]|[_ Hx]].
    + destruct (I5 _ _ _ _ Htd0 Hrd0 Ht) as [H|[H1 H2]]; [left; eauto|].
      right. split; [eauto | congruence].
    + eauto.
Qed.

(** A task at its first program point gets a channel: on booking a fresh
    one that enters the table, on joining one that leaves it. *)
Lemma RoleInv_take st st' c t t' :
  tasks st' = <[c := t']> (tasks st) →
  tasks st !! c = Some t → gpc t = GStart → rconn t' = rconn t →
  gpc t' = GBookWrite ∨ gpc t' = GJoinSelect →
  (∀ x tx ch, x ≠ c → tasks st !! x = Some tx → joining (gpc tx) = true →
     sc tx = Some ch → listed st' ch → listed st ch) →
  (gpc t' = GJoinSelect → ∀ ch, sc t' = Some ch →
     listed st ch ∧ ¬ listed st' ch) →
  RoleInv st → RoleInv st'.
Proof.
  intros Hts Ht Hg Hr Hpc Hold Hnew [I1 I2 I3 I4 I5].
  assert (Hlook : ∀ x tx, tasks st' !! x = Some tx →
            (x = c ∧ tx = t') ∨ (x ≠ c ∧ tasks st !! x = Some tx)).
  { intros x tx Hx. rewrite Hts in Hx.
    apply lookup_insert_Some in Hx as [[-> <-]|[? Hx]]; eauto. }
  assert (Hnone : rconn t = None).
  { destruct (rconn t) as [rc|] eqn:E; [|done].
    destruct (I1 _ _ _ Ht E); congruence. }
  assert (Hnotref : ∀ d td, tasks st !! d = Some td → rconn td ≠ Some c).
  { intros d td Hd Hrd. destruct (I5 _ _ _ _ Hd Hrd Ht) as [H|[H _]]; congruence. }
  split.
  - intros x tx rc [[-> ->]|[_ Hx]]%Hlook Hrc; [congruence | eauto].
  - intros x tx ch [[-> ->]|[N Hx]]%Hlook Hjx Hscx Hlisted.
    + destruct Hpc as [Hpc|Hpc]; [by rewrite Hpc in Hjx|].
      by destruct (Hnew Hpc ch Hscx).
    + eapply (I2 x tx ch); eauto.
  - intros x1 t1 x2 t2 ch [[-> ->]|[N1 H1]]%Hlook [[-> ->]|[N2 H2]]%Hlook
      J1 J2 S1 S2; try done.
    + destruct Hpc as [Hpc|Hpc]; [by rewrite Hpc in J1|].
      destruct (Hnew Hpc ch S1) as [Hl _]. by destruct (I2 x2 t2 ch H2 J2 S2).
    + destruct Hpc as [Hpc|Hpc]; [by rewrite Hpc in J2|].
      destruct (Hnew Hpc ch S2) as [Hl _]. by destruct (I2 x1 t1 ch H1 J1 S1).
    + eapply (I3 x1 t1 x2 t2 ch); eauto.
  - intros r tr ch [[-> ->]|[N Hr0]]%Hlook Hpr Hsr;
      [destruct Hpc; congruence|].
    destruct (I4 _ _ _ Hr0 Hpr Hsr) as (x & tx & Hx & Hpx & Hsx & Hrx).
    exists x, tx. rewrite Hts, lookup_insert_ne by congruence. eauto.
  - intros d td x tx [[-> ->]|[N Hd]]%Hlook Hrd Hx; [congruence|].
    apply Hlook in Hx as [[-> ->]|[_ Hx]]; [by destruct (Hnotref d td Hd)|].
    eauto.
Qed.

(** The four combinations of a sender and a receiver on one channel: only
    booker-to-joiner and, after it, joiner-to-booker can occur. *)
Lemma handoff_roles st s r ts tr ch :
  ChanInv st → RoleInv st →
  tasks st !! s = Some ts → tasks st !! r = Some tr → s ≠ r →
  sc ts = Some ch → sc tr = Some ch →
  is_Some (after_send (gpc ts)) → is_Some (after_recv (gpc tr)) →
  (gpc ts = GBookSelect ∧ gpc tr = GJoinSelect) ∨
  (gpc ts = GJoinSend ∧ gpc tr = GBookRecv ∧ rconn ts = Some r).
Proof.
  intros IC [I1 I2 I3 I4 I5] Hs Hr Hne Hscs Hscr [ps Hps] [pr Hpr].
  destruct (gpc ts) eqn:Es; try discriminate Hps;
    destruct (gpc tr) eqn:Er; try discriminate Hpr.
  - (* two bookers on one channel *)
    exfalso. destruct (I4 _ _ _ Hr Er Hscr) as (x & tx & Hx & Hpx & Hsx & Hrx).
    destruct (ci_two _ IC ch s r x) as [?|[->| ->]];
      [by exists ts | by exists tr | by exists tx | done | |];
      congruence.
  - by left.
  - right. split; [done|]. split; [done|].
    destruct (I4 _ _ _ Hr Er Hscr) as (x & tx & Hx & Hpx & Hsx & Hrx).
    assert (x = s) as ->.
    { eapply (I3 x tx s ts ch); eauto; by rewrite ?Es, ?Hpx. }
    congruence.
  - (* two joiners on one channel *)
    exfalso. apply Hne. eapply (I3 s ts r tr ch); eauto; by rewrite ?Es, ?Er.
Qed.

Lemma RoleInv_handoff st s r ts tr ch ps pr :
  ChanInv st → PairInv st → RoleInv st →
  tasks st !! s = Some ts → tasks st !! r = Some tr → s ≠ r →
  sc ts = Some ch → sc tr = Some ch →
  after_send (gpc ts) = Some ps → after_recv (gpc tr) = Some pr →
  RoleInv (upd (upd st s (set_gpc ts ps)) r (set_rconn tr s pr)).
Proof.
  intros IC IP I Hs Hr Hne Hscs Hscr Hps Hpr.
  pose proof (handoff_roles st s r ts tr ch IC I Hs Hr Hne Hscs Hscr
                ltac:(eauto) ltac:(eauto)) as Hroles.
  destruct I as [I1 I2 I3 I4 I5].
  assert (Hlook : ∀ x tx,
            tasks (upd (upd st s (set_gpc ts ps)) r (set_rconn tr s pr)) !! x
            = Some tx →
            (x = r ∧ tx = set_rconn tr s pr) ∨
            (x = s ∧ tx = set_gpc ts ps) ∨
            (x ≠ r ∧ x ≠ s ∧ tasks st !! x = Some tx)).
  { intros x tx Hx. cbn [upd tasks] in Hx.
    apply lookup_insert_Some in Hx as [[-> <-]|[? Hx]]; [eauto|].
    apply lookup_insert_Some in Hx as [[-> <-]|[? Hx]]; eauto. }
  assert (Hget : ∀ x tx, x ≠ r → x ≠ s → tasks st !! x = Some tx →
            tasks (upd (upd st s (set_gpc ts ps)) r (set_rconn tr s pr)) !! x
            = Some tx).
  { intros x tx N1 N2 Hx. cbn [upd tasks]. by rewrite !lookup_insert_ne. }
  assert (Hget_r :
            tasks (upd (upd st s (set_gpc ts ps)) r (set_rconn tr s pr)) !! r
            = Some (set_rconn tr s pr)).
  { cbn [upd tasks]. by rewrite lookup_insert_eq. }
  assert (Hget_s :
            tasks (upd (upd st s (set_gpc ts ps)) r (set_rconn tr s pr)) !! s
            = Some (set_gpc ts ps)).
  { cbn [upd tasks]. rewrite lookup_insert_ne by done. by rewrite lookup_insert_eq. }
  destruct Hroles as [[Es Er]|(Es & Er & Hrs)];
    rewrite Es in Hps; rewrite Er in Hpr;
    injection Hps as <-; injection Hpr as <-.
  - (* the booker sends, the joiner receives *)
    assert (Hns : rconn ts = None).
    { destruct (rconn ts) as [rc|] eqn:E; [|done].
      destruct (I1 _ _ _ Hs E); congruence. }
    split.
    + intros x tx rc [[-> ->]|[[-> ->]|(_ & _ & Hx)]]%Hlook Hrc; cbn in *;
        [by left | congruence | eauto].
    + intros x tx c0 [[-> ->]|[[-> ->]|(_ & _ & Hx)]]%Hlook J S; cbn in *.
      * eapply (I2 r tr c0); eauto. by rewrite Er.
      * discriminate.
      * eapply (I2 x tx c0); eauto.
    + assert (Hj : ∀ x tx,
                tasks (upd (upd st s (set_gpc ts GBookRecv)) r
                         (set_rconn tr s GJoinSend)) !! x = Some tx →
                joining (gpc tx) = true →
                ∃ tx0, tasks st !! x = Some tx0 ∧ joining (gpc tx0) = true ∧
                       sc tx0 = sc tx).
      { intros x tx [[-> ->]|[[-> ->]|(_ & _ & Hx)]]%Hlook J; cbn in *.
        - exists tr. by rewrite Er.
        - discriminate.
        - eauto. }
      intros x1 t1 x2 t2 c0 H1 H2 J1 J2 S1 S2.
      destruct (Hj _ _ H1 J1) as (u1 & Hu1 & Ju1 & Su1).
      destruct (Hj _ _ H2 J2) as (u2 & Hu2 & Ju2 & Su2).
      eapply (I3 x1 u1 x2 u2 c0); eauto; congruence.
    + intros x tx c0 [[-> ->]|[[-> ->]|(N1 & N2 & Hx)]]%Hlook P S; cbn in *.
      * discriminate.
      * exists r, (set_rconn tr s GJoinSend). split; [exact Hget_r|].
        cbn. repeat split; congruence.
      * destruct (I4 _ _ _ Hx P S) as (y & ty & Hy & Hpy & Hsy & Hry).
        exists y, ty. split; [|done]. apply Hget; [congruence | congruence | done].
    + intros d td c0 tc Hd Hrd Hc.
      apply Hlook in Hd as [[-> ->]|[[-> ->]|(N1 & N2 & Hd)]]; cbn in Hrd.
      * injection Hrd as <-. rewrite Hget_s in Hc. injection Hc as <-. by left.
      * congruence.
      * apply Hlook in Hc as [[-> ->]|[[-> ->]|(_ & _ & Hc)]].
        -- destruct (I5 _ _ _ _ Hd Hrd Hr) as [H|[H _]]; congruence.
        -- destruct (I5 _ _ _ _ Hd Hrd Hs) as [H|[H _]]; congruence.
        -- eauto.
  - (* the joiner sends, the booker receives *)
    split.
    + intros x tx rc [[-> ->]|[[-> ->]|(_ & _ & Hx)]]%Hlook Hrc; cbn in *;
        [by right | by right | eauto].
    + intros x tx c0 [[-> ->]|[[-> ->]|(_ & _ & Hx)]]%Hlook J S; cbn in *;
        [discriminate | discriminate |].
      eapply (I2 x tx c0); eauto.
    + intros x1 t1 x2 t2 c0
        [[-> ->]|[[-> ->]|(_ & _ & H1)]]%Hlook
        [[-> ->]|[[-> ->]|(_ & _ & H2)]]%Hlook J1 J2 S1 S2; cbn in *;
        try discriminate.
      eapply (I3 x1 t1 x2 t2 c0); eauto.
    + intros x tx c0 [[-> ->]|[[-> ->]|(N1 & N2 & Hx)]]%Hlook P S; cbn in *;
        [discriminate | discriminate |].
      destruct (I4 _ _ _ Hx P S) as (y & ty & Hy & Hpy & Hsy & Hry).
      exists y, ty. split; [|done]. apply Hget; [congruence | | done].
      intros ->. assert (ty = ts) as -> by congruence. congruence.
    + intros d td c0 tc Hd Hrd Hc.
      apply Hlook in Hd as [[-> ->]|[[-> ->]|(N1 & N2 & Hd)]]; cbn in Hrd.
      * injection Hrd as <-. rewrite Hget_s in Hc. injection Hc as <-.
        right. cbn. done.
      * rewrite Hrs in Hrd. injection Hrd as <-.
        rewrite Hget_r in Hc. injection Hc as <-. right. cbn. done.
      * apply Hlook in Hc as [[-> ->]|[[-> ->]|(_ & _ & Hc)]].
        -- (* a third connection has the booker as its remote *)
           exfalso. destruct (pi_peer _ IP d td r Hd Hrd) as (Hdr & c1 & Hh1 & Hh2).
           assert (c1 = ch) as ->.
           { destruct Hh2 as (tr' & Htr' & Hsc'). congruence. }
           destruct (ci_two _ IC ch d s r) as [?|[?|?]];
             [done | by exists ts | by exists tr | congruence..].
        -- destruct (I5 _ _ _ _ Hd Hrd Hs) as [H|[H _]]; congruence.
        -- eauto.
Qed.

Lemma RoleInv_upd st c t t' :
  tasks st !! c = Some t → sc t' = sc t → rconn t' = rconn t →
  (joining (gpc t') = true → joining (gpc t) = true) →
  (gpc t' = GBookRecv → gpc t = GBookRecv) →
  (gpc t = GJoinSend → gpc t' = GJoinSend) →
  (gpc t = GBookRecv → gpc t' = GBookRecv) →
  (gpc t = GDone → gpc t' = GDone) →
  RoleInv st → RoleInv (upd st c t').
Proof. apply RoleInv_keep; [reflexivity | by intros ch H]. Qed.

Lemma RoleInv_step st a st' evs :
  ChanInv st → PairInv st → RoleInv st →
  step st a = Some (st', evs) → RoleInv st'.
Proof.
  intros IC IP I H. destruct a; unfold_step H; inv_step H;
    try (eapply RoleInv_upd;
         [eassumption | reflexivity | reflexivity | .. | exact I];
         cbn; repeat match goal with Hpc : gpc _ = _ |- _ => rewrite Hpc end;
         cbn; intros; congruence).
  - (* accept *)
    destruct I as [I1 I2 I3 I4 I5].
    assert (Hlook : ∀ x tx,
              tasks (upd st c (mkTask key None None GStart HRead false)) !! x
              = Some tx →
              (x = c ∧ tx = mkTask key None None GStart HRead false) ∨
              (x ≠ c ∧ tasks st !! x = Some tx)).
    { intros x tx Hx. cbn [upd tasks] in Hx.
      apply lookup_insert_Some in Hx as [[-> <-]|[? Hx]]; eauto. }
    split.
    + intros x tx rc [[-> ->]|[_ Hx]]%Hlook Hrc; [discriminate | eauto].
    + intros x tx ch [[-> ->]|[_ Hx]]%Hlook J S; [discriminate|].
      eapply (I2 x tx ch); eauto.
    + intros x1 t1 x2 t2 ch [[-> ->]|[_ H1]]%Hlook [[-> ->]|[_ H2]]%Hlook
        J1 J2 S1 S2; try discriminate.
      eapply (I3 x1 t1 x2 t2 ch); eauto.
    + intros r tr ch [[-> ->]|[_ Hr]]%Hlook P S; [discriminate|].
      destruct (I4 _ _ _ Hr P S) as (x & tx & Hx & Hrest).
      exists x, tx. split; [|done]. cbn [upd tasks].
      rewrite lookup_insert_ne by congruence. done.
    + intros d td x tx [[-> ->]|[_ Hd]]%Hlook Hrd Hx; [discriminate|].
      apply Hlook in Hx as [[-> ->]|[_ Hx]]; [|eauto].
      exfalso. destruct (pi_peer _ IP d td c Hd Hrd) as (_ & ch & _ & (tc & Htc & _)).
      congruence.
  - (* book *)
    eapply (RoleInv_take st _ c t);
      [reflexivity | exact Et | exact E | reflexivity | by left | | | exact I].
    + intros x tx ch Hne Hx J S [k Hk]. cbn [slots] in Hk.
      apply lookup_insert_Some in Hk as [[_ <-]|[_ Hk]]; [|by exists k].
      exfalso. pose proof (ci_holds_lt _ IC x (nchan st)) as Hlt.
      specialize (Hlt ltac:(by exists tx)). lia.
    + discriminate.
  - (* write_slot *)
    eapply RoleInv_upd; [eassumption | reflexivity | reflexivity | .. | exact I];
      rewrite E; destruct ok; cbn; intros; congruence.
  - (* join *)
    eapply (RoleInv_take st _ c t);
      [reflexivity | exact Et | exact E | reflexivity | by right | | | exact I].
    + intros x tx ch Hne Hx J S [k Hk]. cbn [slots] in Hk.
      apply lookup_delete_Some in Hk as [_ Hk]. by exists k.
    + intros _ ch [= <-]. split; [by exists (slotkey t)|].
      intros [k Hk]. cbn [slots] in Hk.
      apply lookup_delete_Some in Hk as [Hne Hk].
      apply Hne. eapply (ci_inj _ IC); eauto.
  - (* drop *)
    eapply (RoleInv_keep st _ c t);
      [reflexivity | | exact Et | reflexivity | reflexivity | .. | exact I];
      try (cbn; intros; congruence).
    intros ch [k Hk]. cbn [slots] in Hk.
    apply lookup_delete_Some in Hk as [_ Hk]. by exists k.
  - (* handoff *)
    apply bool_decide_eq_true_1 in E as [Hne <-].
    by eapply RoleInv_handoff.
  - (* forward *)
    eapply RoleInv_upd; [eassumption | .. | exact I];
      destruct ok; cbn; intros; congruence.
Qed.

Lemma reachable_roles st :
  reachable st → ChanInv st ∧ PairInv st ∧ RoleInv st.
Proof.
  apply (reachable_invariant (λ st, ChanInv st ∧ PairInv st ∧ RoleInv st)).
  - split; [apply ChanInv_init | split; [apply PairInv_init | apply RoleInv_init]].
  - intros s a s' evs (IC & IP & IR) H. split; [|split].
    + by eapply ChanInv_step.
    + by eapply PairInv_step.
    + by eapply RoleInv_step.
Qed.

(** ** Codes and channels *)

Lemma OwnerInv_init : OwnerInv init.
Proof. split; cbn; intros *; by rewrite lookup_empty. Qed.

Lemma OwnerInv_keep st st' c t t' :
  tasks st' = <[c := t']> (tasks st) →
  (∀ k ch, slots st' !! k = Some ch → slots st !! k = Some ch) →
  tasks st !! c = Some t → sc t' = sc t → slotkey t' = slotkey t →
  OwnerInv st → OwnerInv st'.
Proof.
  intros Hts Hsl Ht Hsc Hk [I1 I2].
  assert (Hlook : ∀ x tx, tasks st' !! x = Some tx →
            ∃ tx0, tasks st !! x = Some tx0 ∧ sc tx0 = sc tx ∧
                   slotkey tx0 = slotkey tx).
  { intros x tx Hx. rewrite Hts in Hx.
    apply lookup_insert_Some in Hx as [[-> <-]|[? Hx]]; eauto. }
  split.
  - intros k ch x tx Hkc (tx0 & Hx0 & S0 & K0)%Hlook Hs.
    rewrite <- K0. eapply I1; eauto. congruence.
  - intros ch x1 t1 x2 t2 (u1 & H1 & S1 & K1)%Hlook (u2 & H2 & S2 & K2)%Hlook Hs1 Hs2.
    rewrite <- K1, <- K2. eapply (I2 ch x1 u1 x2 u2); eauto; congruence.
Qed.

Lemma OwnerInv_step st a st' evs :
  ChanInv st → PairInv st → OwnerInv st →
  step st a = Some (st', evs) → OwnerInv st'.
Proof.
  intros IC IP I H. destruct a; unfold_step H; inv_step H;
    try (eapply (OwnerInv_keep st _ c t); [reflexivity | done | exact Et | done | done | exact I]).
  - (* accept *)
    destruct I as [I1 I2].
    assert (Hlook : ∀ x tx ch,
              tasks (upd st c (mkTask key None None GStart HRead false)) !! x
              = Some tx → sc tx = Some ch → tasks st !! x = Some tx).
    { intros x tx ch Hx Hs. cbn [upd tasks] in Hx.
      apply lookup_insert_Some in Hx as [[-> <-]|[? Hx]]; [discriminate | done]. }
    split.
    + intros k ch x tx Hk Hx Hs. eapply I1; eauto.
    + intros ch x1 t1 x2 t2 H1 H2 S1 S2. eapply (I2 ch x1 t1 x2 t2); eauto.
  - (* book: a fresh channel under the code chosen *)
    destruct I as [I1 I2].
    assert (Hfresh : ∀ x tx, tasks st !! x = Some tx → sc tx ≠ Some (nchan st)).
    { intros x tx Hx Hs. pose proof (ci_holds_lt _ IC x (nchan st)) as Hlt.
      specialize (Hlt ltac:(by exists tx)). lia. }
    split; cbn [slots tasks].
    + intros k ch x tx Hk Hx Hs.
      apply lookup_insert_Some in Hx as [[-> <-]|[Hne Hx]]; cbn in *.
      * injection Hs as <-.
        apply lookup_insert_Some in Hk as [[<- _]|[_ Hk]]; [done|].
        exfalso. pose proof (ci_listed_lt _ IC (nchan st)) as Hlt.
        specialize (Hlt ltac:(by exists k)). lia.
      * apply lookup_insert_Some in Hk as [[_ <-]|[_ Hk]];
          [by destruct (Hfresh x tx Hx) | eauto].
    + intros ch x1 t1 x2 t2 H1 H2 S1 S2.
      apply lookup_insert_Some in H1 as [[-> <-]|[N1 H1]];
        apply lookup_insert_Some in H2 as [[-> <-]|[N2 H2]]; cbn in *.
      * done.
      * injection S1 as <-. by destruct (Hfresh x2 t2 H2).
      * injection S2 as <-. by destruct (Hfresh x1 t1 H1).
      * eapply (I2 ch x1 t1 x2 t2); eauto.
  - (* join: the channel found under the code asked for *)
    destruct I as [I1 I2]. split; cbn [slots tasks].
    + intros k ch x tx Hk Hx Hs.
      apply lookup_delete_Some in Hk as [Hnk Hk].
      apply lookup_insert_Some in Hx as [[-> <-]|[Hne Hx]]; cbn in *.
      * injection Hs as <-. exfalso. apply Hnk. eapply (ci_inj _ IC); eauto.
      * eauto.
    + intros ch x1 t1 x2 t2 H1 H2 S1 S2.
      apply lookup_insert_Some in H1 as [[-> <-]|[N1 H1]];
        apply lookup_insert_Some in H2 as [[-> <-]|[N2 H2]]; cbn in *.
      * done.
      * injection S1 as <-. symmetry. eapply I1; eauto.
      * injection S2 as <-. eapply I1; eauto.
      * eapply (I2 ch x1 t1 x2 t2); eauto.
  - (* drop *)
    eapply (OwnerInv_keep st _ c t); [reflexivity | | exact Et | done | done | exact I].
    cbn [slots]. by intros k ch [_ Hk]%lookup_delete_Some.
  - (* handoff *)
    apply bool_decide_eq_true_1 in E as [Hne _].
    eapply (OwnerInv_keep (upd st s (set_gpc t g)) _ r t0);
      [reflexivity | done | | done | done |].
    + cbn [upd tasks]. by rewrite lookup_insert_ne.
    + eapply (OwnerInv_keep st _ s t); [reflexivity | done | exact Et | done | done | exact I].
  - (* forward *)
    eapply (OwnerInv_keep st _ c t);
      [reflexivity | done | exact Et | | | exact I]; by destruct ok.
Qed.

Lemma reachable_owner st : reachable st → OwnerInv st.
Proof.
  intros R.
  assert (H : ChanInv st ∧ PairInv st ∧ OwnerInv st); [|tauto].
  revert st R.
  apply (reachable_invariant (λ st, ChanInv st ∧ PairInv st ∧ OwnerInv st)).
  - split; [apply ChanInv_init | split; [apply PairInv_init | apply OwnerInv_init]].
  - intros s a s' evs (IC & IP & IO) H. split; [|split].
    + by eapply ChanInv_step.
    + by eapply PairInv_step.
    + by eapply OwnerInv_step.
Qed.

(** X8.  Two bookings that are in the table at the same time have different
    codes: if two connections hold channels that are both in the table and
    their codes are equal, they are the same connection.  The entry of a
    connection's channel is under that connection's code. *)
Theorem listed_codes_distinct st c1 t1 c2 t2 ch1 ch2 :
  reachable st →
  tasks st !! c1 = Some t1 → tasks st !! c2 = Some t2 →
  sc t1 = Some ch1 → sc t2 = Some ch2 →
  listed st ch1 → listed st ch2 →
  slots st !! slotkey t1 = Some ch1 ∧
  slots st !! slotkey t2 = Some ch2 ∧
  (slotkey t1 = slotkey t2 → c1 = c2).
Proof.
  intros R H1 H2 S1 S2 [k1 L1] [k2 L2].
  pose proof (reachable_owner _ R) as IO.
  pose proof (reachable_ChanInv _ R) as IC.
  rewrite <- (oi_key _ IO k1 ch1 c1 t1 L1 H1 S1) in L1.
  rewrite <- (oi_key _ IO k2 ch2 c2 t2 L2 H2 S2) in L2.
  split; [done|]. split; [done|]. intros E. rewrite E in L1.
  assert (ch1 = ch2) as -> by congruence.
  eapply (ci_one _ IC ch2); [by exists (slotkey t2) | by exists t1 | by exists t2].
Qed.

Lemma listed_codes_distinct_witness :
  reachable (state_after two_bookings) ∧
  ∃ t1 t2,
    tasks (state_after two_bookings) !! 0 = Some t1 ∧
    tasks (state_after two_bookings) !! 1 = Some t2 ∧
    slots (state_after two_bookings) !! slotkey t1 = Some 0 ∧
    slots (state_after two_bookings) !! slotkey t2 = Some 1 ∧
    slotkey t1 ≠ slotkey t2.
Proof.
  assert (R : reachable (state_after two_bookings))
    by (apply state_after_reachable; vm_compute; eauto).
  split; [exact R|].
  exists (mkTask "7" None (Some 0) GBookSelect HRead false),
         (mkTask "3" None (Some 1) GBookSelect HRead false).
  destruct (listed_codes_distinct (state_after two_bookings)
              0 (mkTask "7" None (Some 0) GBookSelect HRead false)
              1 (mkTask "3" None (Some 1) GBookSelect HRead false) 0 1 R)
    as (H1 & H2 & H3).
  - vm_compute. reflexivity.
  - vm_compute. reflexivity.
  - reflexivity.
  - reflexivity.
  - exists "7"%string. vm_compute. reflexivity.
  - exists "3"%string. vm_compute. reflexivity.
  - split; [vm_compute; reflexivity|]. split; [vm_compute; reflexivity|].
    split; [exact H1|]. split; [exact H2|].
    intros E. discriminate (H3 E).
Defined.

(** ** Paired connections *)

(** X9.  In every reachable state, the remote connection [c] of a
    connection [d] is another connection, one that named or was given the
    same code; [c] in turn has [d] as its remote connection, or none yet
    while it still waits to receive it; and no third connection has [c]
    as its remote. *)
Theorem paired_connections st d td c :
  reachable st → tasks st !! d = Some td → rconn td = Some c →
  c ≠ d ∧
  ∃ tc, tasks st !! c = Some tc ∧
        slotkey tc = slotkey td ∧
        (rconn tc = Some d ∨ (rconn tc = None ∧ gpc tc = GBookRecv)) ∧
        ∀ e te, tasks st !! e = Some te → rconn te = Some c → e = d.
Proof.
  intros R Hd Hrd.
  destruct (reachable_roles _ R) as (IC & IP & IR).
  pose proof (reachable_owner _ R) as IO.
  destruct (pi_peer _ IP d td c Hd Hrd) as (Hne & ch & (td' & Htd' & Hsd) & (tc & Htc & Hsc)).
  assert (td' = td) as -> by congruence.
  split; [done|]. exists tc. split; [done|].
  split; [eapply (oi_same _ IO ch c tc d td); eauto|]. split.
  - destruct (ri_sent _ IR d td c tc Hd Hrd Htc) as [Hp|[_ Hr]]; [|by left].
    right. split; [|done]. destruct (rconn tc) as [x|] eqn:E; [|done].
    destruct (ri_rconn _ IR c tc x Htc E); congruence.
  - intros e te He Hre.
    destruct (pi_peer _ IP e te c He Hre) as (Hne' & ch' & (te' & Hte' & Hse) & (tc' & Htc' & Hsc')).
    assert (ch' = ch) as -> by congruence.
    destruct (ci_two _ IC ch e d c) as [?|[?|?]];
      [by exists te' | by exists td | by exists tc | congruence..].
Qed.

Lemma paired_connections_witness :
  reachable (state_after paired_session) ∧
  rconn <$> tasks (state_after paired_session) !! 1 = Some (Some 0) ∧
  ∃ tc, tasks (state_after paired_session) !! 0 = Some tc ∧
        slotkey tc = "7"%string ∧ rconn tc = Some 1.
Proof.
  assert (R : reachable (state_after paired_session))
    by (apply state_after_reachable; vm_compute; eauto).
  split; [exact R|]. split; [vm_compute; reflexivity|].
  destruct (paired_connections (state_after paired_session) 1
              (mkTask "7" (Some 0) (Some 0) GDone HRead false) 0 R)
    as (_ & tc & Htc & Hk & _ & _); try (vm_compute; reflexivity).
  exists tc. split; [exact Htc|]. split; [exact Hk|].
  vm_compute in Htc. by injection Htc as <-.
Defined.

Lemma forward_in_dests (c rc : conn) mt p ok evs :
  EForward c rc mt p ok ∈ evs → rc ∈ dests c evs.
Proof.
  intros Hin. unfold dests. apply list_elem_of_omap.
  exists (EForward c rc mt p ok). split; [done|]. cbn.
  by destruct (decide (c = c)).
Qed.

(** X10.  In every run, the frames written to a connection by read loops
    all come from one connection, its peer: if the loop of [c] has written
    a frame to [d], then [d] is not [c] but the remote connection of [c], the
    two have the same code, and no other loop has written to [d]. *)
Theorem no_cross_talk acts st evs (c d : conn) mt p ok :
  run init acts = Some (st, evs) →
  EForward c d mt p ok ∈ evs →
  c ≠ d ∧
  (∃ tc td, tasks st !! c = Some tc ∧ tasks st !! d = Some td ∧
            rconn tc = Some d ∧ slotkey tc = slotkey td) ∧
  ∀ c' mt' p' ok', EForward c' d mt' p' ok' ∈ evs → c' = c.
Proof.
  intros Hrun Hin.
  assert (R : reachable st) by (by exists acts, evs).
  pose proof (TraceInv_run acts init st [] evs TraceInv_init Hrun) as I.
  cbn [app] in I.
  assert (Hdest : ∀ x y, y ∈ dests x evs →
            ∃ tx, tasks st !! x = Some tx ∧ rconn tx = Some y).
  { intros x y Hy. specialize (I x). destruct (tasks st !! x) as [tx|].
    - exists tx. split; [done|]. by apply (tt_dest _ _ _ _ I).
    - destruct I as (_ & _ & E). rewrite E in Hy. by apply elem_of_nil in Hy. }
  destruct (Hdest c d (forward_in_dests _ _ _ _ _ _ Hin)) as (tc & Htc & Hrc).
  destruct (paired_connections st c tc d R Htc Hrc) as (Hne & td & Htd & Hk & _ & Honly).
  split; [done|]. split; [by exists tc, td|].
  intros c' mt' p' ok' Hin'.
  destruct (Hdest c' d (forward_in_dests _ _ _ _ _ _ Hin')) as (tc' & Htc' & Hrc').
  by eapply Honly.
Qed.

Lemma no_cross_talk_witness :
  is_Some (run init happy_path) ∧
  ∀ c' mt' p' ok' st evs,
    run init happy_path = Some (st, evs) →
    EForward c' 1 mt' p' ok' ∈ evs → c' = 0.
Proof.
  split; [vm_compute; eauto|].
  intros c' mt' p' ok' st evs Hrun Hin.
  assert (H0 : EForward 0 1 BinaryMessage (list_byte_of_string "data") true ∈ evs).
  { assert (E : Some evs = snd <$> run init happy_path) by (by rewrite Hrun).
    vm_compute in E. injection E as ->.
    apply list_elem_of_In. do 2 right. by left. }
  destruct (no_cross_talk happy_path st evs 0 1 _ _ _ Hrun H0) as (_ & _ & H).
  by eapply H.
Defined.

(** ** A joiner whose select took the deadline *)

Lemma abandoned_step st a st' evs c t :
  reachable st → tasks st !! c = Some t → abandoned t →
  step st a = Some (st', evs) →
  ∃ t', tasks st' !! c = Some t' ∧ abandoned t' ∧
        (gpc t = GJoinSend → gpc t' = GJoinSend).
Proof.
  intros R Ht [Hpc Hr] H.
  destruct (reachable_roles _ R) as (IC & _ & IR).
  destruct a; unfold_step H; inv_step H; cbn [upd tasks];
    try (match goal with
         | Et : tasks st !! ?c0 = Some ?t0
           |- ∃ t', <[?c0 := _]> (tasks st) !! c = Some t' ∧ _ =>
             destruct (decide (c0 = c)) as [->|?];
             [ rewrite lookup_insert_eq; assert (t0 = t) as -> by congruence;
               eexists; split; [reflexivity|]
             | rewrite lookup_insert_ne by done; exists t; split; [done|] ]
         end;
         unfold abandoned; cbn; try (destruct ok; cbn); intuition congruence).
  - (* accept *)
    rewrite lookup_insert_ne by congruence. exists t.
    split; [done|]. by split.
  - (* handoff *)
    apply bool_decide_eq_true_1 in E as [Hne <-].
    destruct (handoff_roles st s r t0 t1 c0 IC IR Et Et0 Hne Et1 Et2
                ltac:(eauto) ltac:(eauto)) as [[Es Er]|(Es & Er & Hrs)].
    + assert (c ≠ s) by (intros ->; destruct Hpc; congruence).
      assert (c ≠ r) by (intros ->; destruct Hpc; congruence).
      rewrite !lookup_insert_ne by done. exists t. split; [done|]. by split.
    + assert (c ≠ s) by (intros ->; congruence).
      assert (c ≠ r) by (intros ->; destruct Hpc; congruence).
      rewrite !lookup_insert_ne by done. exists t. split; [done|]. by split.
Qed.

Lemma step_reachable st a st' evs :
  reachable st → step st a = Some (st', evs) → reachable st'.
Proof.
  intros R H. apply (reachable_run st [a] st' evs R).
  cbn [run]. rewrite H. by rewrite app_nil_r.
Qed.

(** X11.  A joiner whose select took the [ctx.Done()] case never returns:
    from any reachable state in which its goroutine has been closed out and
    stands before or at the send of line 175 without a remote connection, it
    is still there after every further run, no connection ever has it as its
    remote, and its send is never taken. *)
Theorem abandoned_joiner_never_returns st c t acts st' evs :
  reachable st → tasks st !! c = Some t → abandoned t →
  run st acts = Some (st', evs) →
  ∃ t', tasks st' !! c = Some t' ∧ abandoned t' ∧ gpc t' ≠ GDone ∧
        (∀ x, handoff st' c x = None) ∧
        (∀ d td, tasks st' !! d = Some td → rconn td ≠ Some c).
Proof.
  intros R Ht Hab Hrun.
  assert (H : reachable st' ∧ ∃ t', tasks st' !! c = Some t' ∧ abandoned t').
  { revert Hrun. revert R Ht Hab. revert t.
    assert (G : ∀ st, (reachable st ∧ ∃ t, tasks st !! c = Some t ∧ abandoned t) →
                      run st acts = Some (st', evs) →
                      reachable st' ∧ ∃ t', tasks st' !! c = Some t' ∧ abandoned t').
    { intros st0 H0 Hr0.
      refine (run_invariant
                (λ s, reachable s ∧ ∃ t, tasks s !! c = Some t ∧ abandoned t)
                _ acts st0 st' evs H0 Hr0).
      intros s a s' e (Rs & ts & Hts & Habs) Hstep. split.
      - by eapply step_reachable.
      - destruct (abandoned_step _ _ _ _ _ _ Rs Hts Habs Hstep) as (t' & ? & ? & _).
        eauto. }
    intros t R Ht Hab Hrun. apply (G st); eauto. }
  destruct H as (R' & t' & Ht' & Hab').
  destruct (reachable_roles _ R') as (IC & _ & IR).
  exists t'. split; [done|]. split; [done|].
  destruct Hab' as [Hpc Hr]. split; [destruct Hpc; congruence|]. split.
  - intros x. destruct (handoff st' c x) as [[st2 e2]|] eqn:E; [|done]. exfalso.
    unfold handoff in E. rewrite Ht' in E. cbn [mbind option_bind] in E.
    destruct (tasks st' !! x) as [tx|] eqn:Hx; [|discriminate].
    cbn [mbind option_bind] in E.
    destruct (sc t') as [ch|] eqn:Hs; [|discriminate]. cbn [mbind option_bind] in E.
    destruct (sc tx) as [ch'|] eqn:Hsx; [|discriminate]. cbn [mbind option_bind] in E.
    destruct (after_send (gpc t')) as [ps|] eqn:Eps; [|discriminate].
    cbn [mbind option_bind] in E.
    destruct (after_recv (gpc tx)) as [pr|] eqn:Epr; [|discriminate].
    cbn [mbind option_bind] in E.
    destruct (bool_decide (c ≠ x ∧ ch = ch')) eqn:Eb; [|discriminate].
    apply bool_decide_eq_true_1 in Eb as [Hne <-].
    destruct (handoff_roles st' c x t' tx ch IC IR Ht' Hx Hne Hs Hsx
                ltac:(eauto) ltac:(eauto)) as [[Es _]|(_ & _ & Hrs)].
    + destruct Hpc; congruence.
    + congruence.
  - intros d td Hd Hrd.
    destruct (ri_sent _ IR d td c t' Hd Hrd Ht') as [H|[H _]];
      destruct Hpc; congruence.
Qed.

Lemma abandoned_joiner_never_returns_witness :
  reachable (state_after joiner_timed_out) ∧
  (gpc <$> tasks (state_after joiner_timed_out) !! 1) = Some GJoinSend ∧
  ∃ t', tasks (state_after (joiner_timed_out ++ [ARead 1 None; ADeadline 0]))
          !! 1 = Some t' ∧ gpc t' ≠ GDone.
Proof.
  assert (R : reachable (state_after joiner_timed_out))
    by (apply state_after_reachable; vm_compute; eauto).
  split; [exact R|]. split; [vm_compute; reflexivity|].
  destruct (abandoned_joiner_never_returns (state_after joiner_timed_out) 1
              (mkTask "7" None (Some 0) GJoinSend HRead true)
              [ARead 1 None; ADeadline 0]
              (state_after (joiner_timed_out ++ [ARead 1 None; ADeadline 0]))
              [ERead 1 None] R)
    as (t' & Ht' & _ & Hpc & _).
  - vm_compute. reflexivity.
  - split; [by right | reflexivity].
  - vm_compute. reflexivity.
  - exists t'. split; [exact Ht' | exact Hpc].
Defined.

(** ** Close frames *)

Lemma run_trace_invariant (P : State → list Event → Prop) :
  (∀ st a st' evs0 evs,
     reachable st → P st evs0 → step st a = Some (st', evs) →
     P st' (evs0 ++ evs)) →
  ∀ acts st0 evs0 st evs,
    reachable st0 → P st0 evs0 → run st0 acts = Some (st, evs) →
    P st (evs0 ++ evs).
Proof.
  intros Hstep. induction acts as [|a acts IH]; intros st0 evs0 st evs R HP Hrun;
    cbn [run] in Hrun.
  - injection Hrun as <- <-. by rewrite app_nil_r.
  - destruct (step st0 a) as [[st1 evs1]|] eqn:E; [|discriminate].
    destruct (run st1 acts) as [[st2 evs2]|] eqn:E2; [|discriminate].
    injection Hrun as <- <-. rewrite app_assoc.
    eapply IH; [by eapply step_reachable | by eapply Hstep | exact E2].
Qed.













(** ** The code frame *)

Lemma code_step st a st' evs c t :
  reachable st → tasks st !! c = Some t → step st a = Some (st', evs) →
  ∃ t', tasks st' !! c = Some t' ∧
    ((codes_of c evs = [] ∧
      (gpc t ≠ GStart → gpc t ≠ GBookWrite →
       slotkey t' = slotkey t ∧ gpc t' ≠ GStart ∧ gpc t' ≠ GBookWrite)) ∨
     (codes_of c evs = [(TextMessage, list_byte_of_string (slotkey t'))] ∧
      gpc t = GBookWrite ∧ canonical_code (slotkey t') = true ∧
      gpc t' ≠ GStart ∧ gpc t' ≠ GBookWrite)).
Proof.
  intros R Ht H.
  pose proof (reachable_KeyInv _ R) as IK.
  assert (Hcan : gpc t = GBookWrite → canonical_code (slotkey t) = true).
  { intros E. apply (ki_booked _ IK c t Ht). by rewrite E. }
  destruct a; unfold_step H; inv_step H; cbn [upd tasks];
    try (match goal with
         | Et : tasks st !! ?c0 = Some ?t0
           |- ∃ t', <[?c0 := _]> (tasks st) !! c = Some t' ∧ _ =>
             destruct (decide (c0 = c)) as [->|?];
             [ rewrite lookup_insert_eq; assert (t0 = t) as -> by congruence;
               eexists; split; [reflexivity|]
             | rewrite lookup_insert_ne by done; exists t; split; [done|] ]
         end;
         unfold codes_of; cbn;
         try match goal with |- context [decide (?x = c)] =>
               destruct (decide (x = c)); [congruence|] end;
         first
           [ left; split; [done|]; cbn; try (destruct ok; cbn);
             intuition congruence
           | right; destruct (decide (c = c)); [|done];
             split; [done|]; destruct ok; cbn; intuition congruence ]).
  - (* accept *)
    rewrite lookup_insert_ne by congruence. exists t.
    split; [done|]. left. by split.
  - (* handoff *)
    apply bool_decide_eq_true_1 in E as [Hne <-].
    destruct (decide (c = r)) as [->|Nr].
    + rewrite lookup_insert_eq. assert (t1 = t) as -> by congruence.
      eexists. split; [reflexivity|]. left. split; [done|]. cbn.
      intros _ _. split; [done|].
      destruct (gpc t); try discriminate; cbn in Et4; injection Et4 as <-; done.
    + rewrite lookup_insert_ne by done.
      destruct (decide (c = s)) as [->|Ns].
      * rewrite lookup_insert_eq. assert (t0 = t) as -> by congruence.
        eexists. split; [reflexivity|]. left. split; [done|]. cbn.
        intros _ _. split; [done|].
        destruct (gpc t); try discriminate; cbn in Et3; injection Et3 as <-; done.
      * rewrite lookup_insert_ne by done. exists t. split; [done|].
        left. by split.
Qed.

Lemma code_step_new st a st' evs c :
  tasks st !! c = None → step st a = Some (st', evs) →
  codes_of c evs = [].
Proof.
  intros Hc H.
  destruct a; unfold_step H; inv_step H; try done.
  unfold codes_of. cbn. destruct (decide (c0 = c)); [congruence | done].
Qed.

Lemma CodeInv_step st a st' evs0 evs :
  reachable st → CodeInv (tasks st) evs0 → step st a = Some (st', evs) →
  CodeInv (tasks st') (evs0 ++ evs).
Proof.
  intros R I H c. specialize (I c). unfold codes_of in *. rewrite omap_app.
  fold (codes_of c evs0) in *. fold (codes_of c evs).
  destruct (tasks st !! c) as [t|] eqn:Ht.
  - destruct I as [I1 I2].
    destruct (code_step _ _ _ _ _ _ R Ht H)
      as (t' & -> & [[-> Hkeep]|(-> & Hpc & Hcan & N1 & N2)]).
    + rewrite app_nil_r. destruct I1 as [E|[E Hc]].
      * split; [by left|]. intros Hne. congruence.
      * assert (Hne : codes_of c evs0 ≠ []) by (by rewrite E).
        destruct (I2 Hne) as [M1 M2]. destruct (Hkeep M1 M2) as (Hk & M1' & M2').
        rewrite Hk. split; [by right | done].
    + assert (E0 : codes_of c evs0 = []).
      { destruct (codes_of c evs0) as [|x l] eqn:E; [done|].
        destruct I2 as [_ M]; [done | congruence]. }
      rewrite E0. cbn. split; [by right | done].
  - rewrite I, (code_step_new _ _ _ _ _ Ht H). cbn.
    destruct (tasks st' !! c); [|done]. split; [by left | done].
Qed.

Lemma CodeInv_init : CodeInv (tasks init) [].
Proof. intros c. cbn. by rewrite lookup_empty. Qed.

Lemma length_bytes_of_string s :
  length (list_byte_of_string s) = String.length s.
Proof. induction s as [|a s IH]; [reflexivity | cbn; f_equal; exact IH]. Qed.

Lemma canonical_length s :
  canonical_code s = true → 1 ≤ String.length s ≤ 8.
Proof.
  intros H. destruct (StrconvFacts.canonical_is_Itoa s H) as [Hr E].
  rewrite <- E, StrconvFacts.Itoa_nonneg by lia.
  apply format_dec_length; [|lia].
  change (10 ^ Z.of_nat 8)%Z with 100000000%Z.
  change (2 ^ 24)%Z with 16777216%Z in Hr. lia.
Qed.

(** X13.  The one frame the server itself sends to a peer is its code: in
    every run a connection gets at most one such frame, a text frame whose
    payload is the code its goroutine holds, which is 1 to 8 decimal digits
    without a leading zero, and decodes back to it. *)
Theorem code_frame_is_the_code acts st evs (c : conn) mt p ok :
  run init acts = Some (st, evs) →
  EWriteSlot c mt p ok ∈ evs →
  mt = TextMessage ∧ codes_of c evs = [(TextMessage, p)] ∧
  ∃ t, tasks st !! c = Some t ∧
       p = list_byte_of_string (slotkey t) ∧
       string_of_list_byte p = slotkey t ∧
       canonical_code (slotkey t) = true ∧
       1 ≤ length p ≤ 8.
Proof.
  intros Hrun Hin.
  pose proof (run_trace_invariant (λ s e, CodeInv (tasks s) e)
                (λ s a s' e0 e Rs, CodeInv_step s a s' e0 e Rs)
                acts init [] st evs
                ltac:(by exists [], []) CodeInv_init Hrun c) as I.
  cbn [app] in I.
  assert (Hc : (mt, p) ∈ codes_of c evs).
  { unfold codes_of. apply list_elem_of_omap.
    exists (EWriteSlot c mt p ok). split; [done|]. cbn.
    by destruct (decide (c = c)). }
  destruct (tasks st !! c) as [t|] eqn:Ht;
    [|rewrite I in Hc; by apply elem_of_nil in Hc].
  destruct I as [[E|[E Hcan]] _]; [rewrite E in Hc; by apply elem_of_nil in Hc|].
  rewrite E in Hc. apply list_elem_of_singleton in Hc. injection Hc as -> ->.
  split; [done|]. split; [done|]. exists t. split; [done|]. split; [done|].
  split; [apply string_of_list_byte_of_string|]. split; [done|].
  rewrite length_bytes_of_string. by apply canonical_length.
Qed.

Lemma code_frame_is_the_code_witness :
  is_Some (run init happy_path) ∧
  ∀ st evs, run init happy_path = Some (st, evs) →
            codes_of 0 evs = [(TextMessage, list_byte_of_string "7")].
Proof.
  split; [vm_compute; eauto|]. intros st evs Hrun.
  assert (Hin : EWriteSlot 0 TextMessage (list_byte_of_string "7") true ∈ evs).
  { assert (E : Some evs = snd <$> run init happy_path) by (by rewrite Hrun).
    vm_compute in E. injection E as ->. apply list_elem_of_In. by left. }
  by destruct (code_frame_is_the_code _ _ _ 0 _ _ _ Hrun Hin) as (_ & H & _).
Defined.
